(** * gue: the locked job and its finalization operations (job.go)

    A shallow embedding of [job.go] and of the two tables of [schema.sql].
    The [*Job] receiver, the transaction it is locked to and the driver's
    answers are explicit: every method is a computation over a [State] that
    returns its result, the state it leaves and the calls it made. *)

From Stdlib Require Import ZArith Lia String List Bool.
From Stdlib Require Import Init.Byte.
From stdpp Require Import base option list gmap strings.

Open Scope Z_scope.

(** ** Go values *)

(** [int32]: two's complement, 32 bits. Go's [+] on [int32] wraps. *)
Definition int32_min : Z := - 2 ^ 31.
Definition int32_max : Z := 2 ^ 31 - 1.

Definition wrap_int32 (z : Z) : Z := (z + 2 ^ 31) `mod` 2 ^ 32 - 2 ^ 31.

Definition int32_add (a b : Z) : Z := wrap_int32 (a + b).

Definition is_int32 (z : Z) : Prop := int32_min <= z <= int32_max.

(** [time.Time] is an instant, counted here in nanoseconds since the Unix
    epoch; [time.Duration] is a number of nanoseconds. [Time.Add] is exact:
    the seconds of a [time.Time] are a 64-bit count, so no clock reading
    plus an [int64] duration leaves its range. [Time.UTC] changes the
    location a time is printed in, not the instant. *)
Definition time_Time := Z.
Definition time_Duration := Z.

Definition Time_Add (t : time_Time) (d : time_Duration) : time_Time := t + d.
Definition Time_UTC (t : time_Time) : time_Time := t.

(** The zero [time.Time]: January 1, year 1, 00:00:00 UTC. *)
Definition zero_Time : time_Time := -62135596800 * 1000000000.

(** [sql.NullTime]. *)
Record NullTime := { Time : time_Time; Valid : bool }.

(** [NullTime.Value]: what a [NullTime] stands for as a column value. *)
Definition NullTime_Value (n : NullTime) : option time_Time :=
  if Valid n then Some (Time n) else None.

(** [error]: an opaque error with its message, or one built by [fmt.Errorf]
    with a [%w] verb, which remembers the error it wraps. *)
Inductive error :=
| errorString (msg : string)
| wrapError (msg : string) (err : error).

Definition err_msg (e : error) : string :=
  match e with errorString m => m | wrapError m _ => m end.



(** The verb [%v] applied to an [error] value ([<nil>] for a nil one). *)
Definition fmt_v (e : option error) : string :=
  match e with None => "<nil>"%string | Some e => err_msg e end.

(** [Backoff]. The function is taken to be set and to return a duration:
    a job whose [backoff] is nil, or panics, is outside this development,
    and nothing below says that [Error] does not panic on such a job. *)
Definition Backoff := Z -> time_Duration.

(** ** The tables of schema.sql *)

(** One record for both tables: they have the same columns, in
    [gue_jobs_finished] [finished_at] is NOT NULL. The nullable columns are
    options. *)
Record Row := {
  job_id : Z;
  priority : Z;
  job_type : string;
  queue : string;
  args : list byte;
  created_at : time_Time;
  run_at : time_Time;
  finished_at : option time_Time;
  error_count : Z;
  last_error : option string;
  updated_at : option time_Time
}.

Record DB := {
  gue_jobs : gmap Z Row;
  gue_jobs_finished : gmap Z Row
}.

(** The four statements of job.go, with their parameters in the order of
    the placeholders. *)
Inductive stmt :=
| (* DELETE FROM gue_jobs WHERE job_id = $1 *)
  sql_delete (p1 : Z)
| (* UPDATE gue_jobs SET finished_at =$1 WHERE job_id = $2 *)
  sql_finished (p1 : time_Time) (p2 : Z)
| (* INSERT INTO gue_jobs_finished (job_id, job_type, queue, args, priority,
     run_at, error_count, last_error, created_at, updated_at, finished_at)
     VALUES ($1, ..., $11) *)
  sql_migrate (p1 : Z) (p2 : string) (p3 : string) (p4 : list byte) (p5 : Z)
              (p6 : time_Time) (p7 : Z) (p8 : option string)
              (p9 : time_Time) (p10 : time_Time) (p11 : time_Time)
| (* UPDATE gue_jobs SET error_count = $1, run_at = $2, last_error = $3,
     updated_at = $4 WHERE job_id = $5 *)
  sql_error (p1 : Z) (p2 : time_Time) (p3 : string) (p4 : time_Time) (p5 : Z).

Definition set_finished_at (t : time_Time) (r : Row) : Row :=
  {| job_id := job_id r; priority := priority r; job_type := job_type r;
     queue := queue r; args := args r; created_at := created_at r;
     run_at := run_at r; finished_at := Some t;
     error_count := error_count r; last_error := last_error r;
     updated_at := updated_at r |}.

Definition set_errored (n : Z) (at_ : time_Time) (msg : string)
    (now : time_Time) (r : Row) : Row :=
  {| job_id := job_id r; priority := priority r; job_type := job_type r;
     queue := queue r; args := args r; created_at := created_at r;
     run_at := at_; finished_at := finished_at r;
     error_count := n; last_error := Some msg;
     updated_at := Some now |}.

(** The row an INSERT of [sql_migrate] adds: each value under the column
    listed at its position. *)
Definition migrated_row (p1 : Z) (p2 p3 : string) (p4 : list byte) (p5 : Z)
    (p6 : time_Time) (p7 : Z) (p8 : option string)
    (p9 p10 p11 : time_Time) : Row :=
  {| job_id := p1; job_type := p2; queue := p3; args := p4; priority := p5;
     run_at := p6; error_count := p7; last_error := p8; created_at := p9;
     updated_at := Some p10; finished_at := Some p11 |}.

(** What a statement does to the tables; a value is stored as it is
    passed. [None]: the INSERT hits the primary key of
    [gue_jobs_finished]. An UPDATE or DELETE whose WHERE matches no row
    changes nothing. *)
Definition run_stmt (s : stmt) (d : DB) : option DB :=
  match s with
  | sql_delete id =>
      Some {| gue_jobs := delete id (gue_jobs d);
              gue_jobs_finished := gue_jobs_finished d |}
  | sql_finished now id =>
      Some {| gue_jobs := alter (set_finished_at now) id (gue_jobs d);
              gue_jobs_finished := gue_jobs_finished d |}
  | sql_migrate p1 p2 p3 p4 p5 p6 p7 p8 p9 p10 p11 =>
      match gue_jobs_finished d !! p1 with
      | Some _ => None
      | None =>
          Some {| gue_jobs := gue_jobs d;
                  gue_jobs_finished :=
                    <[p1 := migrated_row p1 p2 p3 p4 p5 p6 p7 p8 p9 p10 p11]>
                      (gue_jobs_finished d) |}
      end
  | sql_error n at_ msg now id =>
      Some {| gue_jobs := alter (set_errored n at_ msg now) id (gue_jobs d);
              gue_jobs_finished := gue_jobs_finished d |}
  end.

(** SQLSTATE 23505, the driver's error for a primary key that exists. *)
Definition unique_violation : error :=
  errorString "ERROR: duplicate key value violates unique constraint (SQLSTATE 23505)".

(** ** The job *)

(** [adapter.Tx] and [adapter.ConnPool] values: the job holds the one
    transaction it was locked in and the pool it came from, or nil. *)
Inductive adapter_Tx := the_tx.
Inductive adapter_ConnPool := the_pool.

(** [Job]. [int64], [int16] and [int32] fields are integers within their
    range; only [ErrorCount] is computed with. [LastError], a
    [pgtype.Text], is NULL or a text. [backoff] is the function the client
    set when it locked the job. The mutex [mu] has no field here: its
    [Lock] and [Unlock] calls are events of the run (see [event]). *)
Record Job := {
  ID : Z;
  Queue : string;
  Priority : Z;
  RunAt : time_Time;
  Type_ : string;
  Args : list byte;
  ErrorCount : Z;
  LastError : option string;
  CreatedAt : time_Time;
  UpdatedAt : NullTime;
  FinishedAt : NullTime;
  finished : bool;
  deleted : bool;
  pool : option adapter_ConnPool;
  tx : option adapter_Tx;
  backoff : Backoff
}.

Definition with_finished (j : Job) (at_ : NullTime) : Job :=
  {| ID := ID j; Queue := Queue j; Priority := Priority j; RunAt := RunAt j;
     Type_ := Type_ j; Args := Args j; ErrorCount := ErrorCount j;
     LastError := LastError j; CreatedAt := CreatedAt j;
     UpdatedAt := UpdatedAt j; FinishedAt := at_;
     finished := finished j; deleted := deleted j; pool := pool j;
     tx := tx j; backoff := backoff j |}.

Definition with_flags (j : Job) (fin del : bool) : Job :=
  {| ID := ID j; Queue := Queue j; Priority := Priority j; RunAt := RunAt j;
     Type_ := Type_ j; Args := Args j; ErrorCount := ErrorCount j;
     LastError := LastError j; CreatedAt := CreatedAt j;
     UpdatedAt := UpdatedAt j; FinishedAt := FinishedAt j;
     finished := fin; deleted := del; pool := pool j;
     tx := tx j; backoff := backoff j |}.

Definition with_handles (j : Job) (p : option adapter_ConnPool)
    (t : option adapter_Tx) : Job :=
  {| ID := ID j; Queue := Queue j; Priority := Priority j; RunAt := RunAt j;
     Type_ := Type_ j; Args := Args j; ErrorCount := ErrorCount j;
     LastError := LastError j; CreatedAt := CreatedAt j;
     UpdatedAt := UpdatedAt j; FinishedAt := FinishedAt j;
     finished := finished j; deleted := deleted j; pool := p;
     tx := t; backoff := backoff j |}.

(** ** Runs *)

(** The fields the mutex is there for. *)
Inductive field := f_tx | f_pool | f_finished | f_deleted.

(** What a method does that can be seen from outside the method: it takes
    and releases [mu], reads and writes the guarded fields, and calls the
    driver. A driver call is recorded with the driver's answer. *)
Inductive event :=
| EvLock
| EvUnlock
| EvRead (f : field)
| EvWrite (f : field)
| EvExec (s : stmt) (res : option error)
| EvCommit (res : option error)
| EvRollback.

(** The receiver, the tables as the job's transaction sees them ([view])
    and the tables as committed ([store]). *)
Record State := {
  job : Job;
  view : DB;
  store : DB
}.

Definition with_job (s : State) (j : Job) : State :=
  {| job := j; view := view s; store := store s |}.

(** A call returns or panics. *)
Inductive outcome (A : Type) :=
| Return (a : A)
| Panic (v : string).
Arguments Return {A} a.
Arguments Panic {A} v.

Definition M (A : Type) : Type := State -> outcome A * State * list event.

#[global] Instance M_ret : MRet M :=
  fun A a s => (Return a, s, []).

#[global] Instance M_bind : MBind M :=
  fun A B k m s =>
    match m s with
    | (Return a, s1, l1) =>
        match k a s1 with (o, s2, l2) => (o, s2, l1 ++ l2) end
    | (Panic v, s1, l1) => (Panic v, s1, l1)
    end.

(** [defer d; body]: [d] runs when [body] returns and when it panics, and
    a panic goes on after it. *)
Definition defer {A} (d : M unit) (body : M A) : M A :=
  fun s =>
    match body s with
    | (o, s1, l1) =>
        match d s1 with
        | (Return _, s2, l2) => (o, s2, l1 ++ l2)
        | (Panic v, s2, l2) => (Panic v, s2, l1 ++ l2)
        end
    end.

(** [defer func() { ... err = ... }()] in a function with the named result
    [err]: the deferred function sees the result and may replace it. When
    the body panics [err] is still nil, the function runs and the panic
    goes on. *)
Definition defer_named (d : option error -> M (option error))
    (body : M (option error)) : M (option error) :=
  fun s =>
    match body s with
    | (Return err, s1, l1) =>
        match d err s1 with (o, s2, l2) => (o, s2, l1 ++ l2) end
    | (Panic v, s1, l1) =>
        match d None s1 with
        | (Return _, s2, l2) => (Panic v, s2, l1 ++ l2)
        | (Panic v', s2, l2) => (Panic v', s2, l1 ++ l2)
        end
    end.

Definition emit (e : event) : M unit := fun s => (Return tt, s, [e]).
Definition panic {A} (v : string) : M A := fun s => (Panic v, s, []).

Definition the_job : M Job := fun s => (Return (job s), s, []).
Definition update_job (f : Job -> Job) : M unit :=
  fun s => (Return tt, with_job s (f (job s)), []).

Definition mu_Lock : M unit := emit EvLock.
Definition mu_Unlock : M unit := emit EvUnlock.

Definition load_tx : M (option adapter_Tx) :=
  emit (EvRead f_tx);; j ← the_job; mret (tx j).
Definition load_pool : M (option adapter_ConnPool) :=
  emit (EvRead f_pool);; j ← the_job; mret (pool j).
Definition load_finished : M bool :=
  emit (EvRead f_finished);; j ← the_job; mret (finished j).
Definition load_deleted : M bool :=
  emit (EvRead f_deleted);; j ← the_job; mret (deleted j).

Definition store_tx (t : option adapter_Tx) : M unit :=
  emit (EvWrite f_tx);; update_job (fun j => with_handles j (pool j) t).
Definition store_pool (p : option adapter_ConnPool) : M unit :=
  emit (EvWrite f_pool);; update_job (fun j => with_handles j p (tx j)).
Definition store_finished (b : bool) : M unit :=
  emit (EvWrite f_finished);; update_job (fun j => with_flags j b (deleted j)).
Definition store_deleted (b : bool) : M unit :=
  emit (EvWrite f_deleted);; update_job (fun j => with_flags j (finished j) b).

Definition nil_dereference : string :=
  "runtime error: invalid memory address or nil pointer dereference".

(** ** The driver

    [adapter.Tx] is an interface; what a call answers is the driver's
    business. A call is given the answer of the driver for reasons of its
    own ([None]: none, the statement runs); a statement that runs changes
    the transaction's view of the tables, a commit that succeeds makes the
    view the committed state. A method of a nil interface value panics. *)
Definition tx_Exec (t : option adapter_Tx) (q : stmt) (answer : option error)
    : M (option error) :=
  match t with
  | None => panic nil_dereference
  | Some _ => fun s =>
      match answer with
      | Some e => (Return (Some e), s, [EvExec q (Some e)])
      | None =>
          match run_stmt q (view s) with
          | Some v =>
              (Return None, {| job := job s; view := v; store := store s |},
               [EvExec q None])
          | None =>
              (Return (Some unique_violation), s,
               [EvExec q (Some unique_violation)])
          end
      end
  end.

Definition tx_Commit (t : option adapter_Tx) (answer : option error)
    : M (option error) :=
  match t with
  | None => panic nil_dereference
  | Some _ => fun s =>
      match answer with
      | Some e => (Return (Some e), s, [EvCommit (Some e)])
      | None =>
          (Return None, {| job := job s; view := view s; store := view s |},
           [EvCommit None])
      end
  end.

(** ** job.go *)

(** [func (j *Job) Tx() adapter.Tx] *)
Definition Tx : M (option adapter_Tx) :=
  mu_Lock;;
  defer mu_Unlock
    load_tx.

(** [func (j *Job) Delete(ctx context.Context) error] *)
Definition Delete (exec : option error) : M (option error) :=
  mu_Lock;;
  defer mu_Unlock (
    d ← load_deleted;
    if d : bool then mret None else
    t ← load_tx;
    j ← the_job;
    err ← tx_Exec t (sql_delete (ID j)) exec;
    match err with
    | Some e => mret (Some e)
    | None => store_deleted true;; mret None
    end).

(** [func (j *Job) Finished(ctx context.Context) error]; [clock] is what
    [time.Now()] reads. *)
Definition Finished (clock : time_Time) (exec : option error)
    : M (option error) :=
  mu_Lock;;
  defer mu_Unlock (
    f ← load_finished;
    if f : bool then mret None else
    let now := Time_UTC clock in
    t ← load_tx;
    j ← the_job;
    err ← tx_Exec t (sql_finished now (ID j)) exec;
    match err with
    | Some e => mret (Some e)
    | None =>
        update_job (fun j => with_finished j {| Time := now; Valid := true |});;
        store_finished true;;
        mret None
    end).

(** [func (j *Job) Migrate(ctx context.Context) error] *)
Definition Migrate (exec : option error) : M (option error) :=
  mu_Lock;;
  defer mu_Unlock (
    f ← load_finished;
    if negb f then mret None else
    t ← load_tx;
    j ← the_job;
    err ← tx_Exec t
            (sql_migrate (ID j) (Type_ j) (Queue j) (Args j) (Priority j)
               (RunAt j) (ErrorCount j) (LastError j) (CreatedAt j)
               (Time_UTC (Time (UpdatedAt j)))
               (Time_UTC (Time (FinishedAt j))))
            exec;
    match err with
    | Some e => mret (Some e)
    | None => mret None
    end).

(** [func (j *Job) Done(ctx context.Context) error] *)
Definition Done (commit : option error) : M (option error) :=
  mu_Lock;;
  defer mu_Unlock (
    t ← load_tx;
    gone ← (if t is None then mret true
            else p ← load_pool; mret (bool_decide (p = None)));
    if gone : bool then (* already marked as done *) mret None else
    t ← load_tx;
    err ← tx_Commit t commit;
    match err with
    | Some e => mret (Some e)
    | None => store_pool None;; store_tx None;; mret None
    end).

(** The error [Error] returns when its deferred [Done] fails:
    [fmt.Errorf("failed to mark job as done (original error: %v): %w",
    err, doneErr)]. *)
Definition done_error (err : option error) (doneErr : error) : error :=
  wrapError
    ("failed to mark job as done (original error: " +:+ fmt_v err +:+ "): "
       +:+ err_msg doneErr)
    doneErr.

(** [func (j *Job) Error(ctx context.Context, msg string) (err error)].
    [errorCount] is an [int32]; [int(errorCount)] is the same number. *)
Definition Error (clock : time_Time) (msg : string)
    (exec commit : option error) : M (option error) :=
  defer_named
    (fun err =>
       doneErr ← Done commit;
       match doneErr with
       | Some de => mret (Some (done_error err de))
       | None => mret err
       end)
    (j ← the_job;
     let errorCount := int32_add (ErrorCount j) 1 in
     let now := Time_UTC clock in
     let newRunAt := Time_Add now (backoff j errorCount) in
     t ← load_tx;
     j ← the_job;
     tx_Exec t (sql_error errorCount newRunAt msg now (ID j)) exec).

(** ** Reading a run *)

Definition result {A} (r : outcome A * State * list event) : outcome A := r.1.1.
Definition final {A} (r : outcome A * State * list event) : State := r.1.2.
Definition events {A} (r : outcome A * State * list event) : list event := r.2.

(** A locked job: it holds its transaction and its pool. *)
Definition locked (j : Job) : Prop :=
  tx j = Some the_tx /\ pool j = Some the_pool.

(** The [finished] flag comes with its time: [Finished] sets both. *)
Definition finished_has_time (j : Job) : Prop :=
  finished j = true -> Valid (FinishedAt j) = true.

(** Calls that end a transaction, and the commits that went through. *)
Definition ends_tx (e : event) : bool :=
  match e with EvCommit _ | EvRollback => true | _ => false end.

Definition is_exec (e : event) : bool :=
  match e with EvExec _ _ => true | _ => false end.

Definition committed (e : event) : bool :=
  match e with EvCommit None => true | _ => false end.

(** [Done] called once per answer of the driver, one call after the
    other. *)
Fixpoint Done_each (answers : list (option error)) : M unit :=
  match answers with
  | [] => mret tt
  | a :: rest => Done a;; Done_each rest
  end.

(** The mutex discipline of a run, replayed over its events with [held]
    telling whether [mu] is taken: [mu] is not taken twice ([sync.Mutex] is
    not reentrant), not released when free, free at the end, and a guarded
    field is read or written only while it is held. *)
Fixpoint guarded_from (held : bool) (l : list event) : bool :=
  match l with
  | [] => negb held
  | EvLock :: l' => negb held && guarded_from true l'
  | EvUnlock :: l' => held && guarded_from false l'
  | EvRead _ :: l' | EvWrite _ :: l' => held && guarded_from held l'
  | _ :: l' => guarded_from held l'
  end.

Definition lock_discipline (l : list event) : bool := guarded_from false l.


(** The row a job stands for: each field under its column, a [NullTime]
    as the value it holds ([Valid] false is NULL). *)
Definition job_columns (j : Job) : Row :=
  {| job_id := ID j; job_type := Type_ j; queue := Queue j; args := Args j;
     priority := Priority j; run_at := RunAt j;
     error_count := ErrorCount j; last_error := LastError j;
     created_at := CreatedAt j;
     updated_at := NullTime_Value (UpdatedAt j);
     finished_at := NullTime_Value (FinishedAt j) |}.

(** Modelled from the spec: the WHERE clause of the lock query of
    client.go, which is not among the sources. Section 6.2 gives it as
    [queue = $1 AND run_at <= now()]; [at_] is the time of the dispatch. *)
Definition eligible (r : Row) (q : string) (at_ : time_Time) : bool :=
  bool_decide (queue r = q) && (run_at r <=? at_).

(** ** Sample jobs *)

Definition second : time_Duration := 1000000000.

(** A backoff that grows with the retries: [retries] seconds. *)
Definition linear_backoff : Backoff := fun retries => retries * second.

Definition sample_job : Job :=
  {| ID := 7; Queue := "mail"; Priority := 0; RunAt := 1000 * second;
     Type_ := "send"; Args := [x7b; x7d]; ErrorCount := 2;
     LastError := Some "boom"%string; CreatedAt := 900 * second;
     UpdatedAt := {| Time := 950 * second; Valid := true |};
     FinishedAt := {| Time := zero_Time; Valid := false |};
     finished := false; deleted := false;
     pool := Some the_pool; tx := Some the_tx;
     backoff := linear_backoff |}.

Definition other_row : Row :=
  {| job_id := 8; priority := -5; job_type := "send"; queue := "mail";
     args := [x7b; x7d]; created_at := 901 * second;
     run_at := 1001 * second; finished_at := None; error_count := 0;
     last_error := None; updated_at := Some (901 * second) |}.

Definition state_of (j : Job) : State :=
  let d := {| gue_jobs := {[ ID j := job_columns j; 8 := other_row ]};
              gue_jobs_finished := ∅ |} in
  {| job := j; view := d; store := d |}.

Definition sample_state : State := state_of sample_job.

(** The sample job after a successful [Finished] at second 1200. *)
Definition finished_job : Job :=
  with_flags
    (with_finished sample_job {| Time := 1200 * second; Valid := true |})
    true false.

(** The same with updated_at NULL in its row. *)
Definition never_updated_job : Job :=
  {| ID := 7; Queue := "mail"; Priority := 0; RunAt := 1000 * second;
     Type_ := "send"; Args := [x7b; x7d]; ErrorCount := 0;
     LastError := None; CreatedAt := 900 * second;
     UpdatedAt := {| Time := zero_Time; Valid := false |};
     FinishedAt := {| Time := 1200 * second; Valid := true |};
     finished := true; deleted := false;
     pool := Some the_pool; tx := Some the_tx;
     backoff := linear_backoff |}.

(** A job that has failed as often as an [int32] counts. *)
Definition worn_job : Job :=
  {| ID := 7; Queue := "mail"; Priority := 0; RunAt := 1000 * second;
     Type_ := "send"; Args := [x7b; x7d]; ErrorCount := 2147483647;
     LastError := Some "boom"%string; CreatedAt := 900 * second;
     UpdatedAt := {| Time := 950 * second; Valid := true |};
     FinishedAt := {| Time := zero_Time; Valid := false |};
     finished := false; deleted := false;
     pool := Some the_pool; tx := Some the_tx;
     backoff := linear_backoff |}.

Definition io_timeout : error := errorString "i/o timeout".
Definition conn_closed : error := errorString "conn closed".

(** What [tx_Exec] answers and the view it leaves, as functions of the
    driver's answer. *)
Definition exec_answer (q : stmt) (answer : option error) (v : DB)
    : option error :=
  match answer with
  | Some e => Some e
  | None => if run_stmt q v is Some _ then None else Some unique_violation
  end.

Definition exec_view (q : stmt) (answer : option error) (v : DB) : DB :=
  match answer with
  | Some _ => v
  | None => if run_stmt q v is Some v' then v' else v
  end.

(** ** Calls in a row *)

(** A caller's view of the methods: one call with the answers the driver
    gives it, and calls made one after the other. A panic ends the row of
    calls. *)
Inductive call :=
| call_Tx
| call_Delete (exec : option error)
| call_Finished (clock : time_Time) (exec : option error)
| call_Migrate (exec : option error)
| call_Done (commit : option error)
| call_Error (clock : time_Time) (msg : string) (exec commit : option error).

Definition ignore {A} (m : M A) : M unit :=
  fun s =>
    match m s with
    | (Return _, s1, l1) => (Return tt, s1, l1)
    | (Panic v, s1, l1) => (Panic v, s1, l1)
    end.

Definition do_call (c : call) : M unit :=
  match c with
  | call_Tx => ignore Tx
  | call_Delete exec => ignore (Delete exec)
  | call_Finished clock exec => ignore (Finished clock exec)
  | call_Migrate exec => ignore (Migrate exec)
  | call_Done commit => ignore (Done commit)
  | call_Error clock msg exec commit => ignore (Error clock msg exec commit)
  end.

Fixpoint do_calls (cs : list call) : M unit :=
  match cs with
  | [] => mret tt
  | c :: cs' => do_call c;; do_calls cs'
  end.

Definition is_Error (c : call) : bool :=
  match c with call_Error _ _ _ _ => true | _ => false end.

(** The fields of a job that describe its row and its backoff. *)
Definition same_data (j j' : Job) : Prop :=
  ID j' = ID j /\ Queue j' = Queue j /\ Priority j' = Priority j
  /\ RunAt j' = RunAt j /\ Type_ j' = Type_ j /\ Args j' = Args j
  /\ ErrorCount j' = ErrorCount j /\ LastError j' = LastError j
  /\ CreatedAt j' = CreatedAt j /\ UpdatedAt j' = UpdatedAt j
  /\ backoff j' = backoff j.

(** Flags that are set stay set, handles that are nil stay nil. *)
Definition no_way_back (j j' : Job) : Prop :=
  (deleted j = true -> deleted j' = true)
  /\ (finished j = true -> finished j' = true)
  /\ (tx j = None -> tx j' = None)
  /\ (pool j = None -> pool j' = None).

(** The rows of other jobs, in both tables. *)
Definition same_other_rows (id : Z) (d d' : DB) : Prop :=
  forall k, k <> id ->
    gue_jobs d' !! k = gue_jobs d !! k
    /\ gue_jobs_finished d' !! k = gue_jobs_finished d !! k.

Definition is_driver_call (e : event) : bool :=
  match e with EvExec _ _ | EvCommit _ | EvRollback => true | _ => false end.

(** The sample job with no pool. *)
Definition poolless_state : State :=
  state_of (with_handles sample_job None (Some the_tx)).

(** ** worker_option.go *)

Module opt.
Section Options.
(** [adapter.Logger], [HookFunc] and [PollStrategy] are declared outside
    this file, and so are [Worker] and [WorkerPool]: the options write ten
    fields of each, of the same names and types. One record has these
    fields; what else a struct holds is [rest]. *)
Context {Logger HookFunc PollStrategy : Type}.

Record configured (Rest : Type) := {
  interval : time_Duration;
  queue : string;
  id : string;
  logger : Logger;
  preserveCompletedJobs : bool;
  migrateCompletedJob : bool;
  hooksJobLocked : list HookFunc;
  hooksUnknownJobType : list HookFunc;
  hooksJobDone : list HookFunc;
  pollStrategy : PollStrategy;
  rest : Rest
}.
Arguments interval {Rest}. Arguments queue {Rest}. Arguments id {Rest}.
Arguments logger {Rest}. Arguments preserveCompletedJobs {Rest}.
Arguments migrateCompletedJob {Rest}. Arguments hooksJobLocked {Rest}.
Arguments hooksUnknownJobType {Rest}. Arguments hooksJobDone {Rest}.
Arguments pollStrategy {Rest}. Arguments rest {Rest}.

Context {WorkerRest PoolRest : Type}.

Definition Worker := configured WorkerRest.
Definition WorkerPool := configured PoolRest.

(** [type WorkerOption func(w *Worker)] and
    [type WorkerPoolOption func(pool *WorkerPool)]: what the function
    does to the struct it is given. *)
Definition WorkerOption := Worker -> Worker.
Definition WorkerPoolOption := WorkerPool -> WorkerPool.

(** The ten fields, and an assignment to one of them. *)
Inductive field_name :=
| f_interval | f_queue | f_id | f_logger | f_preserveCompletedJobs
| f_migrateCompletedJob | f_hooksJobLocked | f_hooksUnknownJobType
| f_hooksJobDone | f_pollStrategy.

#[global] Instance field_name_eq_dec : EqDecision field_name.
Proof. solve_decision. Defined.

Definition set_interval {R} (d : time_Duration) (w : configured R) :=
  {| interval := d; queue := queue w; id := id w; logger := logger w;
     preserveCompletedJobs := preserveCompletedJobs w;
     migrateCompletedJob := migrateCompletedJob w;
     hooksJobLocked := hooksJobLocked w;
     hooksUnknownJobType := hooksUnknownJobType w;
     hooksJobDone := hooksJobDone w; pollStrategy := pollStrategy w;
     rest := rest w |}.
Definition set_queue {R} (q : string) (w : configured R) :=
  {| interval := interval w; queue := q; id := id w; logger := logger w;
     preserveCompletedJobs := preserveCompletedJobs w;
     migrateCompletedJob := migrateCompletedJob w;
     hooksJobLocked := hooksJobLocked w;
     hooksUnknownJobType := hooksUnknownJobType w;
     hooksJobDone := hooksJobDone w; pollStrategy := pollStrategy w;
     rest := rest w |}.
Definition set_id {R} (i : string) (w : configured R) :=
  {| interval := interval w; queue := queue w; id := i; logger := logger w;
     preserveCompletedJobs := preserveCompletedJobs w;
     migrateCompletedJob := migrateCompletedJob w;
     hooksJobLocked := hooksJobLocked w;
     hooksUnknownJobType := hooksUnknownJobType w;
     hooksJobDone := hooksJobDone w; pollStrategy := pollStrategy w;
     rest := rest w |}.
Definition set_logger {R} (l : Logger) (w : configured R) :=
  {| interval := interval w; queue := queue w; id := id w; logger := l;
     preserveCompletedJobs := preserveCompletedJobs w;
     migrateCompletedJob := migrateCompletedJob w;
     hooksJobLocked := hooksJobLocked w;
     hooksUnknownJobType := hooksUnknownJobType w;
     hooksJobDone := hooksJobDone w; pollStrategy := pollStrategy w;
     rest := rest w |}.
Definition set_preserveCompletedJobs {R} (b : bool) (w : configured R) :=
  {| interval := interval w; queue := queue w; id := id w;
     logger := logger w; preserveCompletedJobs := b;
     migrateCompletedJob := migrateCompletedJob w;
     hooksJobLocked := hooksJobLocked w;
     hooksUnknownJobType := hooksUnknownJobType w;
     hooksJobDone := hooksJobDone w; pollStrategy := pollStrategy w;
     rest := rest w |}.
Definition set_migrateCompletedJob {R} (b : bool) (w : configured R) :=
  {| interval := interval w; queue := queue w; id := id w;
     logger := logger w;
     preserveCompletedJobs := preserveCompletedJobs w;
     migrateCompletedJob := b;
     hooksJobLocked := hooksJobLocked w;
     hooksUnknownJobType := hooksUnknownJobType w;
     hooksJobDone := hooksJobDone w; pollStrategy := pollStrategy w;
     rest := rest w |}.
Definition set_hooksJobLocked {R} (hs : list HookFunc) (w : configured R) :=
  {| interval := interval w; queue := queue w; id := id w;
     logger := logger w;
     preserveCompletedJobs := preserveCompletedJobs w;
     migrateCompletedJob := migrateCompletedJob w;
     hooksJobLocked := hs;
     hooksUnknownJobType := hooksUnknownJobType w;
     hooksJobDone := hooksJobDone w; pollStrategy := pollStrategy w;
     rest := rest w |}.
Definition set_hooksUnknownJobType {R} (hs : list HookFunc)
    (w : configured R) :=
  {| interval := interval w; queue := queue w; id := id w;
     logger := logger w;
     preserveCompletedJobs := preserveCompletedJobs w;
     migrateCompletedJob := migrateCompletedJob w;
     hooksJobLocked := hooksJobLocked w;
     hooksUnknownJobType := hs;
     hooksJobDone := hooksJobDone w; pollStrategy := pollStrategy w;
     rest := rest w |}.
Definition set_hooksJobDone {R} (hs : list HookFunc) (w : configured R) :=
  {| interval := interval w; queue := queue w; id := id w;
     logger := logger w;
     preserveCompletedJobs := preserveCompletedJobs w;
     migrateCompletedJob := migrateCompletedJob w;
     hooksJobLocked := hooksJobLocked w;
     hooksUnknownJobType := hooksUnknownJobType w;
     hooksJobDone := hs; pollStrategy := pollStrategy w;
     rest := rest w |}.
Definition set_pollStrategy {R} (s : PollStrategy) (w : configured R) :=
  {| interval := interval w; queue := queue w; id := id w;
     logger := logger w;
     preserveCompletedJobs := preserveCompletedJobs w;
     migrateCompletedJob := migrateCompletedJob w;
     hooksJobLocked := hooksJobLocked w;
     hooksUnknownJobType := hooksUnknownJobType w;
     hooksJobDone := hooksJobDone w; pollStrategy := s;
     rest := rest w |}.

(** The options of a worker. A variadic [hooks ...HookFunc] is the list
    of the hooks given, nil when none is. *)
Definition WithWorkerPollInterval (d : time_Duration) : WorkerOption :=
  fun w => set_interval d w.
Definition WithWorkerQueue (queue : string) : WorkerOption :=
  fun w => set_queue queue w.
Definition WithWorkerID (id : string) : WorkerOption :=
  fun w => set_id id w.
Definition WithWorkerLogger (logger : Logger) : WorkerOption :=
  fun w => set_logger logger w.
Definition WithWorkerPreserveCompletedJobs (preserve : bool)
    : WorkerOption :=
  fun w => set_preserveCompletedJobs preserve w.
Definition WithWorkerMigrateCompletedJobs (migrate : bool) : WorkerOption :=
  fun w => set_migrateCompletedJob migrate w.
Definition WithWorkerHooksJobLocked (hooks : list HookFunc) : WorkerOption :=
  fun w => set_hooksJobLocked hooks w.
Definition WithWorkerHooksUnknownJobType (hooks : list HookFunc)
    : WorkerOption :=
  fun w => set_hooksUnknownJobType hooks w.
Definition WithWorkerHooksJobDone (hooks : list HookFunc) : WorkerOption :=
  fun w => set_hooksJobDone hooks w.
Definition WithWorkerPollStrategy (s : PollStrategy) : WorkerOption :=
  fun w => set_pollStrategy s w.

(** The options of a pool. *)
Definition WithPoolPollInterval (d : time_Duration) : WorkerPoolOption :=
  fun w => set_interval d w.
Definition WithPoolQueue (queue : string) : WorkerPoolOption :=
  fun w => set_queue queue w.
Definition WithPoolID (id : string) : WorkerPoolOption :=
  fun w => set_id id w.
Definition WithPoolLogger (logger : Logger) : WorkerPoolOption :=
  fun w => set_logger logger w.
Definition WithPoolPreserveCompletedJobs (preserve : bool)
    : WorkerPoolOption :=
  fun pool => set_preserveCompletedJobs preserve pool.
Definition WithPoolMigrateCompletedJobs (migrate : bool)
    : WorkerPoolOption :=
  fun pool => set_migrateCompletedJob migrate pool.
Definition WithPoolPollStrategy (s : PollStrategy) : WorkerPoolOption :=
  fun w => set_pollStrategy s w.
Definition WithPoolHooksJobLocked (hooks : list HookFunc)
    : WorkerPoolOption :=
  fun w => set_hooksJobLocked hooks w.
Definition WithPoolHooksUnknownJobType (hooks : list HookFunc)
    : WorkerPoolOption :=
  fun w => set_hooksUnknownJobType hooks w.
Definition WithPoolHooksJobDone (hooks : list HookFunc)
    : WorkerPoolOption :=
  fun w => set_hooksJobDone hooks w.

(** A use of an option: which one and with what argument. *)
Inductive setting :=
| PollInterval (d : time_Duration)
| TheQueue (q : string)
| TheID (i : string)
| TheLogger (l : Logger)
| PreserveCompletedJobs (b : bool)
| MigrateCompletedJobs (b : bool)
| HooksJobLocked (hs : list HookFunc)
| HooksUnknownJobType (hs : list HookFunc)
| HooksJobDone (hs : list HookFunc)
| ThePollStrategy (s : PollStrategy).

Definition written (o : setting) : field_name :=
  match o with
  | PollInterval _ => f_interval
  | TheQueue _ => f_queue
  | TheID _ => f_id
  | TheLogger _ => f_logger
  | PreserveCompletedJobs _ => f_preserveCompletedJobs
  | MigrateCompletedJobs _ => f_migrateCompletedJob
  | HooksJobLocked _ => f_hooksJobLocked
  | HooksUnknownJobType _ => f_hooksUnknownJobType
  | HooksJobDone _ => f_hooksJobDone
  | ThePollStrategy _ => f_pollStrategy
  end.

Definition worker_option (o : setting) : WorkerOption :=
  match o with
  | PollInterval d => WithWorkerPollInterval d
  | TheQueue q => WithWorkerQueue q
  | TheID i => WithWorkerID i
  | TheLogger l => WithWorkerLogger l
  | PreserveCompletedJobs b => WithWorkerPreserveCompletedJobs b
  | MigrateCompletedJobs b => WithWorkerMigrateCompletedJobs b
  | HooksJobLocked hs => WithWorkerHooksJobLocked hs
  | HooksUnknownJobType hs => WithWorkerHooksUnknownJobType hs
  | HooksJobDone hs => WithWorkerHooksJobDone hs
  | ThePollStrategy s => WithWorkerPollStrategy s
  end.

Definition pool_option (o : setting) : WorkerPoolOption :=
  match o with
  | PollInterval d => WithPoolPollInterval d
  | TheQueue q => WithPoolQueue q
  | TheID i => WithPoolID i
  | TheLogger l => WithPoolLogger l
  | PreserveCompletedJobs b => WithPoolPreserveCompletedJobs b
  | MigrateCompletedJobs b => WithPoolMigrateCompletedJobs b
  | HooksJobLocked hs => WithPoolHooksJobLocked hs
  | HooksUnknownJobType hs => WithPoolHooksUnknownJobType hs
  | HooksJobDone hs => WithPoolHooksJobDone hs
  | ThePollStrategy s => WithPoolPollStrategy s
  end.

(** Options applied to a struct one after the other, first to last. *)
Definition apply_all {T} (os : list (T -> T)) (w : T) : T :=
  fold_left (fun w o => o w) os w.
End Options.
Arguments interval {Logger HookFunc PollStrategy Rest} c.
Arguments queue {Logger HookFunc PollStrategy Rest} c.
Arguments id {Logger HookFunc PollStrategy Rest} c.
Arguments logger {Logger HookFunc PollStrategy Rest} c.
Arguments preserveCompletedJobs {Logger HookFunc PollStrategy Rest} c.
Arguments migrateCompletedJob {Logger HookFunc PollStrategy Rest} c.
Arguments hooksJobLocked {Logger HookFunc PollStrategy Rest} c.
Arguments hooksUnknownJobType {Logger HookFunc PollStrategy Rest} c.
Arguments hooksJobDone {Logger HookFunc PollStrategy Rest} c.
Arguments pollStrategy {Logger HookFunc PollStrategy Rest} c.
Arguments rest {Logger HookFunc PollStrategy Rest} c.

(** A worker as a constructor might leave it, with a logger that is a
  name and hooks that are names. *)
Definition sample_worker : @Worker string string string unit :=
{| interval := 5 * second; queue := ""; id := "w-1"; logger := "noop";
   preserveCompletedJobs := false; migrateCompletedJob := false;
   hooksJobLocked := []; hooksUnknownJobType := []; hooksJobDone := [];
   pollStrategy := "OrderByPriority"; rest := tt |}.

Definition sample_options : list (@setting string string string) :=
  [TheQueue "mail"; PollInterval (2 * second); HooksJobDone ["audit"]].

Definition sample_options_swapped : list (@setting string string string) :=
  [PollInterval (2 * second); TheQueue "mail"; HooksJobDone ["audit"]].
End opt.

(** * Properties *)

(** ** Running the methods *)

Ltac run :=
  unfold Error, Done, Migrate, Finished, Delete, Tx, defer_named, defer,
    load_tx, load_pool, load_finished, load_deleted,
    store_tx, store_pool, store_finished, store_deleted,
    mu_Lock, mu_Unlock, emit, panic, the_job, update_job,
    tx_Exec, tx_Commit, mbind, M_bind, mret, M_ret,
    exec_answer, exec_view, with_job; cbn -[run_stmt].

Ltac open_state s :=
  let j := fresh "j" in let v := fresh "v" in let c := fresh "c" in
  destruct s as [j v c]; cbn [job view store] in *.

Lemma Tx_run (s : State) :
  Tx s = (Return (tx (job s)), s, [EvLock; EvRead f_tx; EvUnlock]).
Proof. open_state s. reflexivity. Qed.

Lemma Delete_again (s : State) exec :
  deleted (job s) = true ->
  Delete exec s = (Return None, s, [EvLock; EvRead f_deleted; EvUnlock]).
Proof. open_state s. intros H. run. rewrite H. reflexivity. Qed.

Lemma Delete_run (s : State) exec :
  deleted (job s) = false -> tx (job s) = Some the_tx ->
  let j := job s in
  let q := sql_delete (ID j) in
  Delete exec s =
    (Return exec,
     {| job := if exec is None then with_flags j (finished j) true else j;
        view := exec_view q exec (view s);
        store := store s |},
     [EvLock; EvRead f_deleted; EvRead f_tx; EvExec q exec]
       ++ (if exec is None then [EvWrite f_deleted] else [])
       ++ [EvUnlock]).
Proof.
  open_state s. intros Hd Ht. run. rewrite Hd; cbn -[run_stmt]. rewrite Ht; cbn -[run_stmt].
  destruct exec; reflexivity.
Qed.

Lemma Finished_again (s : State) clock exec :
  finished (job s) = true ->
  Finished clock exec s =
    (Return None, s, [EvLock; EvRead f_finished; EvUnlock]).
Proof. open_state s. intros H. run. rewrite H. reflexivity. Qed.

Lemma Finished_run (s : State) clock exec :
  finished (job s) = false -> tx (job s) = Some the_tx ->
  let j := job s in
  let q := sql_finished clock (ID j) in
  Finished clock exec s =
    (Return exec,
     {| job := if exec is None
               then with_flags
                      (with_finished j {| Time := clock; Valid := true |})
                      true (deleted j)
               else j;
        view := exec_view q exec (view s);
        store := store s |},
     [EvLock; EvRead f_finished; EvRead f_tx; EvExec q exec]
       ++ (if exec is None then [EvWrite f_finished] else [])
       ++ [EvUnlock]).
Proof.
  open_state s. intros Hd Ht. run. rewrite Hd; cbn -[run_stmt]. rewrite Ht; cbn -[run_stmt].
  destruct exec; reflexivity.
Qed.

Lemma Migrate_skipped (s : State) exec :
  finished (job s) = false ->
  Migrate exec s = (Return None, s, [EvLock; EvRead f_finished; EvUnlock]).
Proof. open_state s. intros H. run. rewrite H. reflexivity. Qed.

Lemma Migrate_run (s : State) exec :
  finished (job s) = true -> tx (job s) = Some the_tx ->
  let j := job s in
  let q := sql_migrate (ID j) (Type_ j) (Queue j) (Args j) (Priority j)
             (RunAt j) (ErrorCount j) (LastError j) (CreatedAt j)
             (Time (UpdatedAt j)) (Time (FinishedAt j)) in
  Migrate exec s =
    (Return (exec_answer q exec (view s)),
     {| job := j; view := exec_view q exec (view s); store := store s |},
     [EvLock; EvRead f_finished; EvRead f_tx;
      EvExec q (exec_answer q exec (view s)); EvUnlock]).
Proof.
  open_state s. intros Hd Ht. run. rewrite Hd; cbn -[run_stmt]. rewrite Ht; cbn -[run_stmt].
  destruct exec; [reflexivity|].
  unfold Time_UTC. destruct (run_stmt _ v); reflexivity.
Qed.

Lemma Done_gone (s : State) commit :
  tx (job s) = None ->
  Done commit s = (Return None, s, [EvLock; EvRead f_tx; EvUnlock]).
Proof. open_state s. intros H. run. rewrite H. reflexivity. Qed.

Lemma Done_no_pool (s : State) commit :
  tx (job s) = Some the_tx -> pool (job s) = None ->
  Done commit s =
    (Return None, s, [EvLock; EvRead f_tx; EvRead f_pool; EvUnlock]).
Proof. open_state s. intros H1 H2. run. rewrite H1; cbn. rewrite H2; reflexivity. Qed.

Lemma Done_run (s : State) commit :
  locked (job s) ->
  let j := job s in
  Done commit s =
    (Return commit,
     {| job := if commit is None then with_handles j None None else j;
        view := view s;
        store := if commit is None then view s else store s |},
     [EvLock; EvRead f_tx; EvRead f_pool; EvRead f_tx; EvCommit commit]
       ++ (if commit is None then [EvWrite f_pool; EvWrite f_tx] else [])
       ++ [EvUnlock]).
Proof.
  open_state s. intros [H1 H2]. run. rewrite H1; cbn. rewrite H2; cbn. rewrite H1; cbn.
  destruct commit; reflexivity.
Qed.

Lemma wrap_int32_id (z : Z) : is_int32 z -> wrap_int32 z = z.
Proof.
  unfold is_int32, int32_min, int32_max, wrap_int32. intros H.
  rewrite Z.mod_small; lia.
Qed.

Lemma int32_add_1 (n : Z) :
  is_int32 n -> n < int32_max -> int32_add n 1 = n + 1.
Proof.
  unfold int32_add. intros H1 H2. apply wrap_int32_id.
  unfold is_int32, int32_min, int32_max in *. lia.
Qed.

Lemma Error_run (s : State) clock msg exec commit :
  locked (job s) ->
  let j := job s in
  let n := int32_add (ErrorCount j) 1 in
  let q := sql_error n (clock + backoff j n) msg clock (ID j) in
  let v := exec_view q exec (view s) in
  Error clock msg exec commit s =
    (Return (match commit with
             | None => exec
             | Some de => Some (done_error exec de)
             end),
     {| job := if commit is None then with_handles j None None else j;
        view := v;
        store := if commit is None then v else store s |},
     [EvRead f_tx; EvExec q exec; EvLock; EvRead f_tx; EvRead f_pool;
      EvRead f_tx; EvCommit commit]
       ++ (if commit is None then [EvWrite f_pool; EvWrite f_tx] else [])
       ++ [EvUnlock]).
Proof.
  open_state s. intros [H1 H2]. run. rewrite H1; cbn. 
  destruct exec; cbn; rewrite H1; cbn; rewrite H2; cbn; rewrite ?H1; cbn;
    destruct commit; reflexivity.
Qed.

Lemma Error_nil (s : State) clock msg exec commit :
  tx (job s) = None ->
  Error clock msg exec commit s =
    (Panic nil_dereference, s, [EvRead f_tx; EvLock; EvRead f_tx; EvUnlock]).
Proof. open_state s. intros H. run. rewrite H; cbn. rewrite H; reflexivity. Qed.

(** A run equation stated with [let] is used through this tactic. *)
Ltac by_run E := let H := fresh "Hrun" in
  pose proof E as H; cbv zeta in H; rewrite H; clear H;
  unfold result, final, events; cbn.

(** ** Delete *)

(** C7. On a job that holds its transaction and is not marked deleted,
    [Delete] executes one statement, the DELETE by the job's id; when the
    driver runs it, the row with that id is gone from [gue_jobs], every
    other row and the archive are as before, the [deleted] flag is set and
    nil is returned. A second [Delete] returns nil and neither calls the
    driver nor changes anything. *)
Theorem Delete_deletes_own_row (s : State) (exec' : option error) :
  tx (job s) = Some the_tx ->
  deleted (job s) = false ->
  let j := job s in
  let r := Delete None s in
  result r = Return None
  /\ List.filter is_exec (events r) = [EvExec (sql_delete (ID j)) None]
  /\ gue_jobs (view (final r)) !! ID j = None
  /\ (forall k, k <> ID j ->
        gue_jobs (view (final r)) !! k = gue_jobs (view s) !! k)
  /\ gue_jobs_finished (view (final r)) = gue_jobs_finished (view s)
  /\ job (final r) = with_flags j (finished j) true
  /\ deleted (job (final r)) = true
  /\ Delete exec' (final r)
       = (Return None, final r, [EvLock; EvRead f_deleted; EvUnlock]).
Proof.
  intros Ht Hd j r. subst j r.
  by_run (Delete_run s None Hd Ht).
  repeat split.
  - apply lookup_delete_eq.
  - intros k Hk. by apply lookup_delete_ne.
Qed.

Lemma Delete_deletes_own_row_witness :
  tx (job sample_state) = Some the_tx
  /\ deleted (job sample_state) = false
  /\ gue_jobs (view (final (Delete None sample_state))) !! 7 = None
  /\ gue_jobs (view (final (Delete None sample_state))) !! 8 = Some other_row
  /\ deleted (job (final (Delete None sample_state))) = true.
Proof.
  assert (Ht : tx (job sample_state) = Some the_tx) by reflexivity.
  assert (Hd : deleted (job sample_state) = false) by reflexivity.
  destruct (Delete_deletes_own_row sample_state None Ht Hd)
    as (_ & _ & Hgone & Hrest & _ & _ & Hflag & _).
  split; [exact Ht |]. split; [exact Hd |].
  split; [exact Hgone |]. split; [| exact Hflag].
  refine (eq_trans (Hrest 8 _) eq_refl). discriminate.
Defined.

(** ** Finished *)

(** C6. On a job that holds its transaction and is not marked finished,
    [Finished] executes one statement, the UPDATE of finished_at to the
    clock reading by the job's id; when the driver runs it, the job's row
    has that finished_at, its other columns are as before and no other
    row changes, the [finished] flag is set, [FinishedAt] is valid and
    holds the same reading, and nil is returned. A second [Finished]
    returns nil and neither calls the driver nor changes anything. *)
Theorem Finished_marks_row_and_job (s : State) (clock clock' : time_Time)
    (exec' : option error) :
  tx (job s) = Some the_tx ->
  finished (job s) = false ->
  let j := job s in
  let r := Finished clock None s in
  result r = Return None
  /\ List.filter is_exec (events r) = [EvExec (sql_finished clock (ID j)) None]
  /\ gue_jobs (view (final r)) !! ID j
       = set_finished_at clock <$> gue_jobs (view s) !! ID j
  /\ (forall row, gue_jobs (view s) !! ID j = Some row ->
        exists row',
          gue_jobs (view (final r)) !! ID j = Some row'
          /\ finished_at row' = Some clock
          /\ job_id row' = job_id row /\ priority row' = priority row
          /\ job_type row' = job_type row /\ queue row' = queue row
          /\ args row' = args row /\ created_at row' = created_at row
          /\ run_at row' = run_at row /\ error_count row' = error_count row
          /\ last_error row' = last_error row
          /\ updated_at row' = updated_at row)
  /\ (forall k, k <> ID j ->
        gue_jobs (view (final r)) !! k = gue_jobs (view s) !! k)
  /\ gue_jobs_finished (view (final r)) = gue_jobs_finished (view s)
  /\ finished (job (final r)) = true
  /\ FinishedAt (job (final r)) = {| Time := clock; Valid := true |}
  /\ NullTime_Value (FinishedAt (job (final r))) = Some clock
  /\ Finished clock' exec' (final r)
       = (Return None, final r, [EvLock; EvRead f_finished; EvUnlock]).
Proof.
  intros Ht Hf j r. subst j r.
  by_run (Finished_run s clock None Hf Ht).
  split; [done |]. split; [done |]. split; [apply lookup_alter_eq |].
  split; [| repeat split; intros k Hk; by apply lookup_alter_ne].
  intros row Hrow. exists (set_finished_at clock row).
  rewrite lookup_alter_eq, Hrow. by repeat split.
Qed.

Lemma Finished_marks_row_and_job_witness :
  tx (job sample_state) = Some the_tx
  /\ finished (job sample_state) = false
  /\ gue_jobs (view (final (Finished (1200 * second) None sample_state))) !! 7
       = Some (set_finished_at (1200 * second) (job_columns sample_job))
  /\ (finished_at <$>
        gue_jobs (view (final (Finished (1200 * second) None sample_state)))
          !! 7)
     = Some (Some (1200 * second))
  /\ FinishedAt (job (final (Finished (1200 * second) None sample_state)))
       = {| Time := 1200 * second; Valid := true |}.
Proof.
  assert (Ht : tx (job sample_state) = Some the_tx) by reflexivity.
  assert (Hf : finished (job sample_state) = false) by reflexivity.
  destruct (Finished_marks_row_and_job sample_state (1200 * second)
              (1300 * second) None Ht Hf)
    as (_ & _ & Hrow & Hcols & _ & _ & _ & Hat & _).
  split; [exact Ht |]. split; [exact Hf |].
  split; [exact (eq_trans Hrow eq_refl) |]. split; [| exact Hat].
  destruct (Hcols (job_columns sample_job) eq_refl) as (row' & Hrow' & Hfin & _).
  exact (eq_trans (f_equal (fmap finished_at) Hrow') (f_equal Some Hfin)).
Defined.

(** ** Done *)

(** [Done] returns: it has no call that can panic once [tx] is known not
    to be nil. *)
Lemma Done_cases (s : State) (commit : option error) :
  (Done commit s = (Return None, s, [EvLock; EvRead f_tx; EvUnlock])
   /\ tx (job s) = None)
  \/ (Done commit s
        = (Return None, s, [EvLock; EvRead f_tx; EvRead f_pool; EvUnlock])
      /\ pool (job s) = None)
  \/ (locked (job s)
      /\ Done commit s
         = (Return commit,
            {| job := if commit is None
                      then with_handles (job s) None None else job s;
               view := view s;
               store := if commit is None then view s else store s |},
            [EvLock; EvRead f_tx; EvRead f_pool; EvRead f_tx;
             EvCommit commit]
              ++ (if commit is None then [EvWrite f_pool; EvWrite f_tx]
                  else [])
              ++ [EvUnlock])).
Proof.
  destruct (tx (job s)) as [[]|] eqn:Ht.
  - destruct (pool (job s)) as [[]|] eqn:Hp.
    + right; right. split; [by split |]. by apply Done_run.
    + right; left. split; [by apply Done_no_pool | done].
  - left. split; [by apply Done_gone | done].
Qed.

Lemma Done_each_cons (a : option error) (rest : list (option error))
    (s : State) :
  events (Done_each (a :: rest) s)
    = events (Done a s) ++ events (Done_each rest (final (Done a s))).
Proof.
  cbn [Done_each]. unfold mbind, M_bind, events, final.
  destruct (Done_cases s a) as [[E _] | [[E _] | [_ E]]]; rewrite E; cbn;
    match goal with
    | |- context [Done_each rest ?s1] =>
        destruct (Done_each rest s1) as [[o s2] l2]
    end; reflexivity.
Qed.

Lemma Done_each_final (a : option error) (rest : list (option error))
    (s : State) :
  final (Done_each (a :: rest) s) = final (Done_each rest (final (Done a s))).
Proof.
  cbn [Done_each]. unfold mbind, M_bind, events, final.
  destruct (Done_cases s a) as [[E _] | [[E _] | [_ E]]]; rewrite E; cbn;
    match goal with
    | |- context [Done_each rest ?s1] =>
        destruct (Done_each rest s1) as [[o s2] l2]
    end; reflexivity.
Qed.

(** Once a handle is nil no [Done] reaches the driver or changes the
    state. *)
Lemma Done_each_gone (answers : list (option error)) (s : State) :
  tx (job s) = None \/ pool (job s) = None ->
  List.filter ends_tx (events (Done_each answers s)) = []
  /\ final (Done_each answers s) = s.
Proof.
  intros Hnil. induction answers as [|a rest IH]; [done |].
  assert (Hs : final (Done a s) = s
               /\ List.filter ends_tx (events (Done a s)) = []).
  { destruct (Done_cases s a) as [[E _] | [[E _] | [[Ht Hp] _]]].
    - by rewrite E.
    - by rewrite E.
    - destruct Hnil; congruence. }
  destruct Hs as (Hs & Hc), IH as (IHc & IHs).
  rewrite Done_each_final, Done_each_cons, List.filter_app, Hs, Hc, IHc.
  by split.
Qed.

Lemma committed_ends_tx (l : list event) :
  (length (List.filter committed l) <= length (List.filter ends_tx l))%nat.
Proof.
  induction l as [|[| | | | |[e|]|] l IH]; cbn; lia.
Qed.

(** However often [Done] is called and whatever the driver answers, at
    most one commit goes through. *)
Lemma Done_each_once (answers : list (option error)) (s : State) :
  (length (List.filter committed (events (Done_each answers s))) <= 1)%nat.
Proof.
  revert s. induction answers as [|a rest IH]; intros s; [cbn; lia |].
  rewrite Done_each_cons, List.filter_app, length_app.
  destruct (Done_cases s a) as [[E _] | [[E _] | [_ E]]]; rewrite E.
  - cbn. apply IH.
  - cbn. apply IH.
  - destruct a as [e|]; unfold events, final; cbn [fst snd].
    + cbn. apply IH.
    + pose proof (Done_each_gone rest
        {| job := with_handles (job s) None None; view := view s;
           store := view s |} (or_introl eq_refl)) as [Hc _].
      pose proof (committed_ends_tx
        (events (Done_each rest
           {| job := with_handles (job s) None None; view := view s;
              store := view s |}))) as Hle.
      unfold events in *. rewrite Hc in Hle. cbn in *. lia.
Qed.

(** C4. On a locked job a [Done] whose commit goes through returns nil,
    has called Commit once, has made the transaction's view the committed
    state, and leaves [tx] and [pool] nil; every later [Done] returns nil
    without a call to the driver and changes nothing. Over any number of
    calls of [Done], whatever the driver answers, at most one commit goes
    through. *)
Theorem Done_commits_at_most_once (s : State) (commit' : option error)
    (answers : list (option error)) :
  locked (job s) ->
  let r := Done None s in
  result r = Return None
  /\ List.filter ends_tx (events r) = [EvCommit None]
  /\ store (final r) = view s
  /\ tx (job (final r)) = None
  /\ pool (job (final r)) = None
  /\ Done commit' (final r)
       = (Return None, final r, [EvLock; EvRead f_tx; EvUnlock])
  /\ List.filter ends_tx (events (Done_each answers (final r))) = []
  /\ (length (List.filter committed (events (Done_each answers s))) <= 1)%nat.
Proof.
  intros Hl r. subst r.
  pose proof (Done_each_once answers s) as Honce.
  pose proof (Done_run s None Hl) as E. cbv zeta in E.
  assert (Hgone : tx (job (final (Done None s))) = None)
    by (rewrite E; reflexivity).
  pose proof (Done_each_gone answers _ (or_introl Hgone)) as [Hnone _].
  pose proof (Done_gone _ commit' Hgone) as Hagain.
  revert Hgone Hnone Hagain. rewrite E. unfold result, final, events. cbn.
  intros Hgone Hnone Hagain. by repeat split.
Qed.

Lemma Done_commits_at_most_once_witness :
  locked (job sample_state)
  /\ store (final (Done None sample_state)) = view sample_state
  /\ tx (job (final (Done None sample_state))) = None
  /\ result (Done (Some conn_closed) (final (Done None sample_state)))
       = Return None
  /\ (length (List.filter committed
        (events (Done_each [Some io_timeout; None; None; Some conn_closed]
                   sample_state))) <= 1)%nat.
Proof.
  assert (Hl : locked (job sample_state)) by (split; reflexivity).
  destruct (Done_commits_at_most_once sample_state (Some conn_closed)
              [Some io_timeout; None; None; Some conn_closed] Hl)
    as (_ & _ & Hstore & Htx & _ & Hagain & _ & Honce).
  split; [exact Hl |]. split; [exact Hstore |]. split; [exact Htx |].
  split; [| exact Honce].
  exact (eq_trans (f_equal result Hagain) eq_refl).
Defined.

(** ** Calls that fail *)

(** C10. On a locked job, a [Delete] or [Finished] whose statement the
    driver fails returns the driver's error and leaves the job, flags
    included, and the transaction's view as they were (on a job already
    marked, no statement is executed and nil is returned); a [Done] whose
    commit the driver fails returns the driver's error with [tx] and
    [pool] still set and nothing committed, so that a [Done] after it
    calls Commit again. *)
Theorem failed_call_keeps_job (s : State) (clock : time_Time) (e : error) :
  locked (job s) ->
  let d := Delete (Some e) s in
  let f := Finished clock (Some e) s in
  let c := Done (Some e) s in
  result d = Return (if deleted (job s) then None else Some e)
  /\ final d = s
  /\ result f = Return (if finished (job s) then None else Some e)
  /\ final f = s
  /\ result c = Return (Some e)
  /\ final c = s
  /\ locked (job (final c))
  /\ List.filter ends_tx (events (Done None (final c))) = [EvCommit None]
  /\ tx (job (final (Done None (final c)))) = None.
Proof.
  intros Hl d f c. subst d f c. pose proof Hl as [Ht Hp].
  assert (Hd : result (Delete (Some e) s)
                 = Return (if deleted (job s) then None else Some e)
               /\ final (Delete (Some e) s) = s).
  { destruct (deleted (job s)) eqn:Hd.
    - by rewrite (Delete_again s (Some e) Hd).
    - by_run (Delete_run s (Some e) Hd Ht). by destruct s. }
  assert (Hf : result (Finished clock (Some e) s)
                 = Return (if finished (job s) then None else Some e)
               /\ final (Finished clock (Some e) s) = s).
  { destruct (finished (job s)) eqn:Hf.
    - by rewrite (Finished_again s clock (Some e) Hf).
    - by_run (Finished_run s clock (Some e) Hf Ht). by destruct s. }
  assert (Hc : Done (Some e) s
                 = (Return (Some e), s,
                    [EvLock; EvRead f_tx; EvRead f_pool; EvRead f_tx;
                     EvCommit (Some e); EvUnlock])).
  { pose proof (Done_run s (Some e) Hl) as E. cbv zeta in E. rewrite E.
    by destruct s. }
  destruct Hd as [Hd1 Hd2], Hf as [Hf1 Hf2].
  rewrite Hd1, Hd2, Hf1, Hf2, Hc.
  change (final (Return (Some e), s, _)) with s.
  pose proof (Done_run s None Hl) as E. cbv zeta in E. rewrite E.
  by repeat split.
Qed.

Lemma failed_call_keeps_job_witness :
  locked (job sample_state)
  /\ result (Delete (Some io_timeout) sample_state) = Return (Some io_timeout)
  /\ final (Delete (Some io_timeout) sample_state) = sample_state
  /\ result (Finished (1200 * second) (Some io_timeout) sample_state)
       = Return (Some io_timeout)
  /\ final (Finished (1200 * second) (Some io_timeout) sample_state)
       = sample_state
  /\ result (Done (Some io_timeout) sample_state) = Return (Some io_timeout)
  /\ final (Done (Some io_timeout) sample_state) = sample_state.
Proof.
  assert (Hl : locked (job sample_state)) by (split; reflexivity).
  destruct (failed_call_keeps_job sample_state (1200 * second) io_timeout Hl)
    as (Hd1 & Hd2 & Hf1 & Hf2 & Hc1 & Hc2 & _).
  split; [exact Hl |].
  split; [exact Hd1 |]. split; [exact Hd2 |].
  split; [exact Hf1 |]. split; [exact Hf2 |].
  split; [exact Hc1 | exact Hc2].
Defined.

(** ** Who commits *)

Lemma Delete_never_ends_tx (s : State) (exec : option error) :
  tx (job s) = Some the_tx ->
  List.filter ends_tx (events (Delete exec s)) = []
  /\ store (final (Delete exec s)) = store s
  /\ tx (job (final (Delete exec s))) = tx (job s)
  /\ pool (job (final (Delete exec s))) = pool (job s).
Proof.
  intros Ht. destruct (deleted (job s)) eqn:Hd.
  - by rewrite (Delete_again s exec Hd).
  - by_run (Delete_run s exec Hd Ht). by destruct exec.
Qed.

Lemma Finished_never_ends_tx (s : State) (clock : time_Time)
    (exec : option error) :
  tx (job s) = Some the_tx ->
  List.filter ends_tx (events (Finished clock exec s)) = []
  /\ store (final (Finished clock exec s)) = store s
  /\ tx (job (final (Finished clock exec s))) = tx (job s)
  /\ pool (job (final (Finished clock exec s))) = pool (job s).
Proof.
  intros Ht. destruct (finished (job s)) eqn:Hf.
  - by rewrite (Finished_again s clock exec Hf).
  - by_run (Finished_run s clock exec Hf Ht). by destruct exec.
Qed.

Lemma Migrate_never_ends_tx (s : State) (exec : option error) :
  tx (job s) = Some the_tx ->
  List.filter ends_tx (events (Migrate exec s)) = []
  /\ store (final (Migrate exec s)) = store s
  /\ tx (job (final (Migrate exec s))) = tx (job s)
  /\ pool (job (final (Migrate exec s))) = pool (job s).
Proof.
  intros Ht. destruct (finished (job s)) eqn:Hf.
  - by_run (Migrate_run s exec Hf Ht). done.
  - by rewrite (Migrate_skipped s exec Hf).
Qed.

(** C3. On a locked job [Delete] and [Finished] make no call that ends
    the transaction, whatever the driver answers: the committed state is
    as before and the job still holds its transaction and its pool. The
    same goes for [Migrate]. [Error] makes one such call, a Commit, and it is the one of the [Done]
    it runs after its UPDATE; when that commit goes through the
    transaction's view is the committed state and the handles are nil. *)
Theorem only_Done_commits (s : State) (clock : time_Time) (msg : string)
    (exec commit : option error) :
  locked (job s) ->
  let d := Delete exec s in
  let f := Finished clock exec s in
  let m := Migrate exec s in
  let e := Error clock msg exec commit s in
  let n := int32_add (ErrorCount (job s)) 1 in
  let q := sql_error n (clock + backoff (job s) n) msg clock (ID (job s)) in
  (List.filter ends_tx (events d) = []
   /\ store (final d) = store s /\ locked (job (final d)))
  /\ (List.filter ends_tx (events f) = []
      /\ store (final f) = store s /\ locked (job (final f)))
  /\ (List.filter ends_tx (events m) = []
      /\ store (final m) = store s /\ locked (job (final m)))
  /\ events e
       = [EvRead f_tx; EvExec q exec]
           ++ events (Done commit {| job := job s;
                                     view := exec_view q exec (view s);
                                     store := store s |})
  /\ List.filter ends_tx (events e) = [EvCommit commit]
  /\ store (final e)
       = (if commit is None then view (final e) else store s)
  /\ tx (job (final e)) = (if commit is None then None else Some the_tx).
Proof.
  intros Hl d f m e n q. subst d f m e n q. pose proof Hl as [Ht Hp].
  destruct (Delete_never_ends_tx s exec Ht) as (Hd1 & Hd2 & Hd3 & Hd4).
  destruct (Finished_never_ends_tx s clock exec Ht) as (Hf1 & Hf2 & Hf3 & Hf4).
  destruct (Migrate_never_ends_tx s exec Ht) as (Hm1 & Hm2 & Hm3 & Hm4).
  split; [split; [done | split; [done | split; congruence]] |].
  split; [split; [done | split; [done | split; congruence]] |].
  split; [split; [done | split; [done | split; congruence]] |].
  pose proof (Error_run s clock msg exec commit Hl) as E. cbv zeta in E.
  rewrite E. clear E.
  match goal with
  | |- context [Done commit ?s1] =>
      pose proof (Done_run s1 commit Hl) as E; cbv zeta in E; rewrite E
  end.
  unfold result, final, events. cbn.
  destruct commit; by repeat split.
Qed.

Lemma only_Done_commits_witness :
  locked (job sample_state)
  /\ List.filter ends_tx (events (Delete None sample_state)) = []
  /\ List.filter ends_tx (events (Finished (1200 * second) None sample_state))
       = []
  /\ List.filter ends_tx
       (events (Error (1200 * second) "boom" None None sample_state))
       = [EvCommit None]
  /\ tx (job (final (Error (1200 * second) "boom" None None sample_state)))
       = None.
Proof.
  assert (Hl : locked (job sample_state)) by (split; reflexivity).
  destruct (only_Done_commits sample_state (1200 * second) "boom" None None Hl)
    as ((Hd & _) & (Hf & _) & _ & _ & He & _ & Htx).
  split; [exact Hl |]. split; [exact Hd |]. split; [exact Hf |].
  split; [exact He | exact Htx].
Defined.

(** ** Error *)

(** C9. On a locked job [Error] changes no field of the job but the two
    handles, which its [Done] resets when the commit goes through:
    [ErrorCount] and [LastError] are as they were read at lock time. The
    count plus one and the message are parameters of the UPDATE, and are
    in the job's row once the driver has run it. *)
Theorem Error_keeps_ErrorCount_and_LastError (s : State) (clock : time_Time)
    (msg : string) (exec commit : option error) :
  locked (job s) ->
  let j := job s in
  let r := Error clock msg exec commit s in
  let n := int32_add (ErrorCount j) 1 in
  ErrorCount (job (final r)) = ErrorCount j
  /\ LastError (job (final r)) = LastError j
  /\ job (final r)
       = with_handles j (pool (job (final r))) (tx (job (final r)))
  /\ List.filter is_exec (events r)
       = [EvExec (sql_error n (clock + backoff j n) msg clock (ID j)) exec]
  /\ gue_jobs (view (final r)) !! ID j
       = (if exec is None
          then set_errored n (clock + backoff j n) msg clock
                 <$> gue_jobs (view s) !! ID j
          else gue_jobs (view s) !! ID j).
Proof.
  intros Hl j r n. subst j r n.
  by_run (Error_run s clock msg exec commit Hl).
  destruct Hl as [Ht Hp].
  repeat split.
  - by destruct commit.
  - by destruct commit.
  - destruct commit; cbn; [| done].
    destruct (job s); cbn in *; by subst.
  - by destruct commit.
  - destruct exec; cbn; [done | apply lookup_alter_eq].
Qed.

Lemma Error_keeps_ErrorCount_and_LastError_witness :
  locked (job sample_state)
  /\ ErrorCount
       (job (final (Error (1200 * second) "boom2" None None sample_state))) = 2
  /\ LastError
       (job (final (Error (1200 * second) "boom2" None None sample_state)))
       = Some "boom"%string
  /\ gue_jobs
       (view (final (Error (1200 * second) "boom2" None None sample_state)))
       !! 7
     = Some (set_errored 3 (1203 * second) "boom2" (1200 * second)
               (job_columns sample_job)).
Proof.
  assert (Hl : locked (job sample_state)) by (split; reflexivity).
  destruct (Error_keeps_ErrorCount_and_LastError sample_state (1200 * second)
              "boom2" None None Hl)
    as (Hn & Hm & _ & _ & Hrow).
  split; [exact Hl |]. split; [exact Hn |]. split; [exact Hm |].
  exact (eq_trans Hrow eq_refl).
Defined.





(** C2, at the last [int32]. The job has failed 2147483647 times and its
    backoff is one second per retry. After an [Error] at time t that
    commits, the row's run_at is t minus 2147483648 seconds, not
    t + backoff (n + 1), and the lock query takes the row at t itself,
    which is before t + backoff (n + 1). *)
Lemma worn_job_is_due_at_once :
  let t := 2000 * second in
  let r := Error t "boom" None None (state_of worn_job) in
  let due := t + backoff worn_job (ErrorCount worn_job + 1) in
  let row := set_errored (-2147483648) (t - 2147483648 * second) "boom" t
               (job_columns worn_job) in
  locked worn_job
  /\ is_int32 (ErrorCount worn_job)
  /\ gue_jobs (store (final r)) !! ID worn_job = Some row
  /\ run_at row <> due
  /\ eligible row "mail" t = true
  /\ t < due.
Proof.
  intros t r due row.
  split; [by split |]. split; [by vm_compute |].
  split; [reflexivity |]. split; [by vm_compute |]. split; by vm_compute.
Qed.

(** C2, short of the last [int32]. On a locked job whose error count n is
    an [int32] below 2147483647, the run_at parameter of the UPDATE that
    [Error] executes at clock reading t is t + backoff (n + 1), whatever
    the driver answers. When the UPDATE and the commit go through, that is
    the committed run_at of the job's row, and the lock query takes the
    row only at a time that is t + backoff (n + 1) or later. *)
Theorem Error_backoff_respected (s : State) (t : time_Time) (msg : string)
    (row : Row) :
  locked (job s) ->
  is_int32 (ErrorCount (job s)) ->
  ErrorCount (job s) < int32_max ->
  gue_jobs (view s) !! ID (job s) = Some row ->
  let j := job s in
  let n := ErrorCount j in
  let due := t + backoff j (n + 1) in
  let r := Error t msg None None s in
  (forall exec commit,
     List.filter is_exec (events (Error t msg exec commit s))
       = [EvExec (sql_error (n + 1) due msg t (ID j)) exec])
  /\ gue_jobs (store (final r)) !! ID j
       = Some (set_errored (n + 1) due msg t row)
  /\ run_at (set_errored (n + 1) due msg t row) = due
  /\ (forall q at_,
        eligible (set_errored (n + 1) due msg t row) q at_ = true ->
        due <= at_).
Proof.
  intros Hl Hn Hmax Hrow j n due r. subst j n due r.
  rewrite <- (int32_add_1 _ Hn Hmax).
  split; [| split; [| split]].
  - intros exec commit.
    by_run (Error_run s t msg exec commit Hl). by destruct commit.
  - by_run (Error_run s t msg None None Hl).
    by rewrite lookup_alter_eq, Hrow.
  - reflexivity.
  - intros q at_. unfold eligible. cbn.
    rewrite andb_true_iff, Z.leb_le. tauto.
Qed.

Lemma Error_backoff_respected_witness :
  locked (job sample_state)
  /\ is_int32 (ErrorCount (job sample_state))
  /\ ErrorCount (job sample_state) < int32_max
  /\ gue_jobs (view sample_state) !! ID (job sample_state)
       = Some (job_columns sample_job)
  /\ gue_jobs
       (store (final (Error (1200 * second) "boom2" None None sample_state)))
       !! 7
     = Some (set_errored 3 (1203 * second) "boom2" (1200 * second)
               (job_columns sample_job))
  /\ 1200 * second + backoff sample_job 3 <= 1203 * second.
Proof.
  assert (Hl : locked (job sample_state)) by (split; reflexivity).
  assert (Hn : is_int32 (ErrorCount (job sample_state)))
    by (split; discriminate).
  assert (Hmax : ErrorCount (job sample_state) < int32_max) by reflexivity.
  assert (Hrow : gue_jobs (view sample_state) !! ID (job sample_state)
                 = Some (job_columns sample_job)) by reflexivity.
  destruct (Error_backoff_respected sample_state (1200 * second) "boom2"
              (job_columns sample_job) Hl Hn Hmax Hrow)
    as (_ & Hstore & _ & Hdue).
  split; [exact Hl |]. split; [exact Hn |]. split; [exact Hmax |].
  split; [exact Hrow |]. split; [exact (eq_trans Hstore eq_refl) |].
  exact (Hdue "mail"%string (1203 * second) eq_refl).
Defined.

(** ** Migrate *)

(** No method sets [finished] without a valid [FinishedAt], or makes a
    [FinishedAt] invalid. *)
Lemma finished_has_time_kept (s : State) (clock : time_Time) (msg : string)
    (exec commit : option error) :
  finished_has_time (job s) ->
  finished_has_time (job (final (Delete exec s)))
  /\ finished_has_time (job (final (Finished clock exec s)))
  /\ finished_has_time (job (final (Migrate exec s)))
  /\ finished_has_time (job (final (Done commit s)))
  /\ finished_has_time (job (final (Error clock msg exec commit s))).
Proof.
  unfold finished_has_time. open_state s. intros Hinv. run.
  destruct (tx j) as [[]|] eqn:Ht, (pool j) as [[]|] eqn:Hp,
    (deleted j) eqn:Hd, (finished j) eqn:Hf, exec, commit;
    repeat (cbn; rewrite ?Ht, ?Hp, ?Hd, ?Hf);
    try destruct (gue_jobs_finished v !! ID j); cbn;
    rewrite ?Hf; by repeat split.
Qed.

(** C5. [Migrate] on a row whose updated_at is NULL. The job is locked
    and marked finished, its row has no updated_at and [UpdatedAt] is not
    valid. [Migrate] passes [j.UpdatedAt.Time.UTC()], without the [Valid]
    flag, where it passes the nullable [LastError] whole: the row it
    inserts has an updated_at, the zero time, and is not the job's row. *)
Lemma Migrate_dates_never_updated_job :
  let s := state_of never_updated_job in
  let r := Migrate None s in
  locked (job s)
  /\ finished (job s) = true
  /\ gue_jobs (view s) !! 7 = Some (job_columns never_updated_job)
  /\ updated_at (job_columns never_updated_job) = None
  /\ result r = Return None
  /\ (updated_at <$> gue_jobs_finished (view (final r)) !! 7)
       = Some (Some zero_Time)
  /\ gue_jobs_finished (view (final r)) !! 7
       <> Some (job_columns never_updated_job).
Proof.
  intros s r.
  split; [by split |]. split; [reflexivity |]. split; [reflexivity |].
  split; [reflexivity |]. split; [reflexivity |]. split; [reflexivity |].
  vm_compute. discriminate.
Qed.

Lemma migrated_row_job_columns (j : Job) :
  Valid (UpdatedAt j) = true ->
  Valid (FinishedAt j) = true ->
  migrated_row (ID j) (Type_ j) (Queue j) (Args j) (Priority j) (RunAt j)
    (ErrorCount j) (LastError j) (CreatedAt j) (Time (UpdatedAt j))
    (Time (FinishedAt j))
  = job_columns j.
Proof.
  intros Hu Hf. unfold migrated_row, job_columns, NullTime_Value.
  by rewrite Hu, Hf.
Qed.

(** X17. [Migrate] on a row that has an updated_at. On a locked job marked
    finished whose [UpdatedAt] and [FinishedAt] are valid, [Migrate] executes one
    statement, the INSERT into [gue_jobs_finished] of the job's eleven
    fields, each under its own column. It returns nil exactly when the
    driver runs the statement and the archive has no row with the job's
    id; the archive then has one more row, under the job's id, which is
    the row the job stands for, column by column. Otherwise the tables are
    as before. [gue_jobs], the committed state and the job do not change.
    On a job that is not marked finished [Migrate] returns nil and neither
    calls the driver nor changes anything. *)
Theorem Migrate_copies_columns (s s' : State) (exec exec' : option error) :
  locked (job s) ->
  finished (job s) = true ->
  Valid (UpdatedAt (job s)) = true ->
  Valid (FinishedAt (job s)) = true ->
  finished (job s') = false ->
  let j := job s in
  let r := Migrate exec s in
  let q := sql_migrate (ID j) (Type_ j) (Queue j) (Args j) (Priority j)
             (RunAt j) (ErrorCount j) (LastError j) (CreatedAt j)
             (Time (UpdatedAt j)) (Time (FinishedAt j)) in
  (exists answer,
     result r = Return answer
     /\ List.filter is_exec (events r) = [EvExec q answer]
     /\ (answer = None <->
           exec = None /\ gue_jobs_finished (view s) !! ID j = None)
     /\ gue_jobs_finished (view (final r))
          = (if answer is None
             then <[ID j := job_columns j]> (gue_jobs_finished (view s))
             else gue_jobs_finished (view s)))
  /\ gue_jobs (view (final r)) = gue_jobs (view s)
  /\ store (final r) = store s
  /\ job (final r) = j
  /\ Migrate exec' s'
       = (Return None, s', [EvLock; EvRead f_finished; EvUnlock]).
Proof.
  intros [Ht _] Hf Hu Hv Hf' j r q. subst j r q.
  pose proof (migrated_row_job_columns (job s) Hu Hv) as Hrow.
  by_run (Migrate_run s exec Hf Ht).
  rewrite (Migrate_skipped s' exec' Hf').
  unfold exec_answer, exec_view. destruct exec as [e|]; cbn.
  - split; [| done]. exists (Some e). repeat split; try done. by intros [? _].
  - destruct (gue_jobs_finished (view s) !! ID (job s)) eqn:Hfree; cbn.
    + split; [| done]. exists (Some unique_violation).
      repeat split; try done. by intros [_ ?].
    + split; [| done]. exists None. rewrite Hrow. by repeat split.
Qed.

Lemma Migrate_copies_columns_witness :
  locked (job (state_of finished_job))
  /\ finished (job (state_of finished_job)) = true
  /\ Valid (UpdatedAt (job (state_of finished_job))) = true
  /\ Valid (FinishedAt (job (state_of finished_job))) = true
  /\ finished (job sample_state) = false
  /\ gue_jobs_finished (view (final (Migrate None (state_of finished_job))))
       !! 7
     = Some (job_columns finished_job)
  /\ Migrate None sample_state
     = (Return None, sample_state, [EvLock; EvRead f_finished; EvUnlock]).
Proof.
  assert (Hl : locked (job (state_of finished_job))) by (split; reflexivity).
  assert (Hf : finished (job (state_of finished_job)) = true) by reflexivity.
  assert (Hu : Valid (UpdatedAt (job (state_of finished_job))) = true)
    by reflexivity.
  assert (Hv : Valid (FinishedAt (job (state_of finished_job))) = true)
    by reflexivity.
  assert (Hn : finished (job sample_state) = false) by reflexivity.
  destruct (Migrate_copies_columns (state_of finished_job) sample_state
              None None Hl Hf Hu Hv Hn)
    as ((answer & _ & _ & Hnil & Harchive) & _ & _ & _ & Hskip).
  split; [exact Hl |]. split; [exact Hf |]. split; [exact Hu |].
  split; [exact Hv |]. split; [exact Hn |]. split; [| exact Hskip].
  rewrite Harchive.
  rewrite (proj2 Hnil (conj eq_refl eq_refl)).
  apply lookup_insert_eq.
Defined.

(** ** The mutex *)

(** [Tx], [Delete], [Finished], [Migrate] and [Done] take [mu] first and
    release it last, also when they panic on a nil [tx]: they touch the
    guarded fields only under it. *)
Lemma guarded_methods_hold_mu (s : State) (clock : time_Time)
    (answer : option error) :
  lock_discipline (events (Tx s)) = true
  /\ lock_discipline (events (Delete answer s)) = true
  /\ lock_discipline (events (Finished clock answer s)) = true
  /\ lock_discipline (events (Migrate answer s)) = true
  /\ lock_discipline (events (Done answer s)) = true.
Proof.
  open_state s. run.
  destruct (tx j) as [[]|] eqn:Ht, (pool j) as [[]|] eqn:Hp,
    (deleted j) eqn:Hd, (finished j) eqn:Hf, answer;
    repeat (cbn; rewrite ?Ht, ?Hp, ?Hd, ?Hf);
    try destruct (gue_jobs_finished v !! ID j); cbn; by repeat split.
Qed.

(** C8. Whatever the job, the first thing [Error] does that touches a
    guarded field is to read [tx], with [mu] not taken: its run does not
    keep the mutex discipline. [mu] is taken after the UPDATE, by the
    deferred [Done]. *)
Theorem Error_reads_tx_without_mu (s : State) (clock : time_Time)
    (msg : string) (exec commit : option error) :
  head (events (Error clock msg exec commit s)) = Some (EvRead f_tx)
  /\ lock_discipline (events (Error clock msg exec commit s)) = false
  /\ (locked (job s) ->
      exists q, take 3 (events (Error clock msg exec commit s))
                = [EvRead f_tx; EvExec q exec; EvLock]).
Proof.
  destruct (tx (job s)) as [[]|] eqn:Ht.
  - destruct (pool (job s)) as [[]|] eqn:Hp.
    + assert (Hl : locked (job s)) by done.
      by_run (Error_run s clock msg exec commit Hl).
      repeat split. intros _. by eexists.
    + split; [| split; [| by intros [_ ?]; congruence]].
      all: revert Ht Hp; open_state s; intros Ht Hp; run;
        rewrite Ht; cbn; destruct exec; cbn; rewrite Ht; cbn; rewrite Hp;
        reflexivity.
  - rewrite (Error_nil s clock msg exec commit Ht).
    repeat split. intros [? _]. congruence.
Qed.

Lemma Error_reads_tx_without_mu_witness :
  locked (job sample_state)
  /\ lock_discipline
       (events (Error (1200 * second) "boom2" None None sample_state)) = false
  /\ exists q,
       take 3 (events (Error (1200 * second) "boom2" None None sample_state))
       = [EvRead f_tx; EvExec q None; EvLock].
Proof.
  assert (Hl : locked (job sample_state)) by (split; reflexivity).
  destruct (Error_reads_tx_without_mu sample_state (1200 * second) "boom2"
              None None) as (_ & Hbad & Hfirst).
  split; [exact Hl |]. split; [exact Hbad | exact (Hfirst Hl)].
Defined.

(** * More on job.go *)

(** ** One call *)

(** Every case of a call: the handles, the flags and the driver's
    answers. *)
Ltac call_cases c s :=
  let j := fresh "j" in let v := fresh "v" in let st := fresh "st" in
  destruct s as [j v st]; cbn [job view store] in *;
  destruct c; unfold do_call, ignore; run;
  destruct (tx j) as [[]|] eqn:?Ht, (pool j) as [[]|] eqn:?Hp,
    (deleted j) eqn:?Hd, (finished j) eqn:?Hf;
  repeat match goal with x : option error |- _ => destruct x end;
  repeat (cbn; rewrite ?Ht, ?Hp, ?Hd, ?Hf);
  try destruct (gue_jobs_finished v !! ID j) eqn:?Hfree; cbn.

Lemma call_keeps_data (c : call) (s : State) :
  same_data (job s) (job (final (do_call c s))).
Proof. unfold same_data. call_cases c s; by repeat split. Qed.

Lemma call_no_way_back (c : call) (s : State) :
  no_way_back (job s) (job (final (do_call c s))).
Proof.
  unfold no_way_back. call_cases c s; rewrite ?Ht, ?Hp, ?Hd, ?Hf; by repeat split.
Qed.

Lemma call_keeps_other_rows (c : call) (s : State) :
  same_other_rows (ID (job s)) (view s) (view (final (do_call c s))).
Proof.
  unfold same_other_rows. call_cases c s; intros k Hk; cbn;
    rewrite ?lookup_delete_ne, ?lookup_alter_ne, ?lookup_insert_ne by done;
    done.
Qed.

Lemma call_commit_cases (c : call) (s : State) :
  (List.filter committed (events (do_call c s)) = []
   /\ store (final (do_call c s)) = store s)
  \/ (List.filter committed (events (do_call c s)) = [EvCommit None]
      /\ locked (job s)
      /\ store (final (do_call c s)) = view (final (do_call c s))
      /\ tx (job (final (do_call c s))) = None).
Proof.
  unfold locked. call_cases c s;
    first [ by left | right; rewrite ?Ht, ?Hp; by repeat split ].
Qed.

Lemma call_after_Done (c : call) (s : State) :
  tx (job s) = None ->
  final (do_call c s) = s
  /\ List.filter is_driver_call (events (do_call c s)) = [].
Proof.
  call_cases c s; intros Hnil; try discriminate Hnil; by split.
Qed.

(** X1. Which calls panic. [Tx] and [Done] never panic. [Delete],
    [Finished] and [Migrate] panic exactly when [tx] is nil and they get
    as far as their statement: [Delete] on a job not marked deleted,
    [Finished] on a job not marked finished, [Migrate] on a job marked
    finished. [Error] panics whenever [tx] is nil. *)
Theorem calls_panic_on_nil_tx (c : call) (s : State) :
  match c with
  | call_Error _ _ _ _ =>
      tx (job s) = None -> exists v, result (do_call c s) = Panic v
  | _ =>
      (exists v, result (do_call c s) = Panic v)
      <-> tx (job s) = None
          /\ match c with
             | call_Delete _ => deleted (job s) = false
             | call_Finished _ _ => finished (job s) = false
             | call_Migrate _ => finished (job s) = true
             | _ => False
             end
  end.
Proof.
  call_cases c s; rewrite ?Ht, ?Hp, ?Hd, ?Hf;
    first [ intros H; by first [ discriminate H | eexists ]
          | split;
            first [ by intros [? ?] | by intros [? ?]
                  | intros _; by repeat split; eauto
                  | intros _; by eexists ] ].
Qed.

Lemma calls_panic_on_nil_tx_witness :
  tx (job (final (Done None sample_state))) = None
  /\ (exists v, result (do_call (call_Error (1300 * second) "late" None None)
                         (final (Done None sample_state))) = Panic v)
  /\ (exists v, result (do_call (call_Delete None)
                         (final (Done None sample_state))) = Panic v)
  /\ ~ (exists v, result (do_call (call_Done None)
                           (final (Done None sample_state))) = Panic v).
Proof.
  assert (Hnil : tx (job (final (Done None sample_state))) = None)
    by reflexivity.
  split; [exact Hnil |].
  split; [exact (calls_panic_on_nil_tx (call_Error (1300 * second) "late"
                   None None) (final (Done None sample_state)) Hnil) |].
  split.
  - exact (proj2 (calls_panic_on_nil_tx (call_Delete None)
                    (final (Done None sample_state))) (conj Hnil eq_refl)).
  - intros Hp.
    exact (proj2 (proj1 (calls_panic_on_nil_tx (call_Done None)
                           (final (Done None sample_state))) Hp)).
Defined.

(** ** Calls in a row *)

Lemma do_calls_cons (c : call) (cs : list call) (s : State) :
  do_calls (c :: cs) s
  = match do_call c s with
    | (Return _, s1, l1) =>
        (result (do_calls cs s1), final (do_calls cs s1),
         l1 ++ events (do_calls cs s1))
    | (Panic v, s1, l1) => (Panic v, s1, l1)
    end.
Proof.
  cbn [do_calls]. unfold mbind, M_bind, result, final, events.
  destruct (do_call c s) as [[[[]|w] s1] l1]; [| reflexivity].
  by destruct (do_calls cs s1) as [[o s2] l2].
Qed.

(** What every call keeps, a row of calls keeps. *)
Lemma do_calls_keep (R : State -> State -> Prop) :
  (forall s, R s s) ->
  (forall s1 s2 s3, R s1 s2 -> R s2 s3 -> R s1 s3) ->
  (forall c s, R s (final (do_call c s))) ->
  forall cs s, R s (final (do_calls cs s)).
Proof.
  intros Hrefl Htrans Hstep cs. induction cs as [|c cs IH]; intros s.
  - apply Hrefl.
  - rewrite do_calls_cons. pose proof (Hstep c s) as Hc.
    destruct (do_call c s) as [[[[]|w] s1] l1]; cbn in *; [| exact Hc].
    exact (Htrans _ _ _ Hc (IH s1)).
Qed.

(** X2. The data of the job. No call, and no row of calls, changes a field
    of the job that describes its row, or its backoff: the id, the queue,
    the priority, run_at, the type, the arguments, the error count, the
    last error, created_at and updated_at are the ones read at lock
    time. *)
Theorem calls_keep_data (cs : list call) (s : State) :
  same_data (job s) (job (final (do_calls cs s))).
Proof.
  apply (do_calls_keep (fun s s' => same_data (job s) (job s'))).
  - intros s0. by repeat split.
  - unfold same_data. intros s1 s2 s3 H12 H23.
    repeat split; etrans; try apply H23; apply H12.
  - intros c s0. apply call_keeps_data.
Qed.

(** X3. No way back. Over any row of calls a job marked deleted stays
    marked deleted, a job marked finished stays marked finished, and a nil
    [tx] or [pool] stays nil: nothing reopens a job that is done. *)
Theorem calls_no_way_back (cs : list call) (s : State) :
  no_way_back (job s) (job (final (do_calls cs s))).
Proof.
  apply (do_calls_keep (fun s s' => no_way_back (job s) (job s'))).
  - intros s0. by repeat split.
  - unfold no_way_back. intros s1 s2 s3 (A1 & A2 & A3 & A4) (B1 & B2 & B3 & B4).
    repeat split; auto.
  - intros c s0. apply call_no_way_back.
Qed.

(** X4. The rows of other jobs. Whatever the calls and the driver's
    answers, the transaction's view of every row whose id is not the
    job's is as before, in [gue_jobs] and in [gue_jobs_finished]. *)
Theorem calls_keep_other_rows (cs : list call) (s : State) :
  same_other_rows (ID (job s)) (view s) (view (final (do_calls cs s))).
Proof.
  cut (ID (job (final (do_calls cs s))) = ID (job s)
       /\ same_other_rows (ID (job s)) (view s)
            (view (final (do_calls cs s)))); [by intros [_ ?] |].
  apply (do_calls_keep (fun s s' =>
    ID (job s') = ID (job s)
    /\ same_other_rows (ID (job s)) (view s) (view s'))).
  - intros s0. split; [done |]. by intros k Hk.
  - intros s1 s2 s3 [I12 H12] [I23 H23]. split; [congruence |].
    intros k Hk. rewrite I12 in H23.
    destruct (H12 k Hk) as [A1 A2], (H23 k Hk) as [B1 B2].
    split; congruence.
  - intros c s0. split.
    + apply (call_keeps_data c s0).
    + apply call_keeps_other_rows.
Qed.

Lemma calls_after_Done (cs : list call) (s : State) :
  tx (job s) = None ->
  final (do_calls cs s) = s
  /\ List.filter is_driver_call (events (do_calls cs s)) = [].
Proof.
  intros Hnil. induction cs as [|c cs [IH1 IH2]]; [done |].
  rewrite do_calls_cons. destruct (call_after_Done c s Hnil) as [Hs Hl].
  destruct (do_call c s) as [[[[]|w] s1] l1];
    unfold final, events in *; cbn in *; subst s1; [| done].
  by rewrite List.filter_app, Hl, IH2.
Qed.

Lemma committed_is_driver_call (l : list event) :
  List.filter is_driver_call l = [] -> List.filter committed l = [].
Proof.
  induction l as [|[| | | | |[e|]|] l IH]; cbn; try done.
Qed.

(** X5. One commit. Over any row of calls of any of the methods, whatever
    the driver answers, at most one commit goes through; and as long as
    none has, the committed tables are the ones the row of calls began
    with. *)
Theorem calls_commit_at_most_once (cs : list call) (s : State) :
  (length (List.filter committed (events (do_calls cs s))) <= 1)%nat
  /\ (List.filter committed (events (do_calls cs s)) = [] ->
      store (final (do_calls cs s)) = store s).
Proof.
  revert s. induction cs as [|c cs IH]; intros s; [by split; cbn; [lia |] |].
  rewrite do_calls_cons.
  destruct (call_commit_cases c s) as [[Hl Hs] | (Hl & _ & Hs & Hnil)];
    destruct (do_call c s) as [[[[]|w] s1] l1];
    unfold final, events in *; cbn [fst snd] in *.
  - destruct (IH s1) as [IH1 IH2].
    rewrite List.filter_app, Hl. cbn [app]. split; [done |].
    intros Hnone. rewrite (IH2 Hnone). done.
  - rewrite Hl. split; [cbn; lia | done].
  - destruct (calls_after_Done cs s1 Hnil) as [_ Hrest].
    apply committed_is_driver_call in Hrest. unfold events in Hrest.
    rewrite List.filter_app, Hl, Hrest. by split; [cbn; lia |].
  - rewrite Hl. by split; [cbn; lia |].
Qed.

Lemma calls_commit_at_most_once_witness :
  let cs := [call_Finished (1200 * second) None; call_Migrate None;
             call_Done (Some conn_closed); call_Done None; call_Done None;
             call_Error (1300 * second) "late" None None] in
  (length (List.filter committed (events (do_calls cs sample_state))) <= 1)%nat
  /\ List.filter committed
       (events (do_calls [call_Delete None; call_Done (Some io_timeout)]
                  sample_state)) = []
  /\ store (final (do_calls [call_Delete None; call_Done (Some io_timeout)]
                     sample_state))
     = store sample_state.
Proof.
  intros cs.
  split; [exact (proj1 (calls_commit_at_most_once cs sample_state)) |].
  assert (Hnone : List.filter committed
            (events (do_calls [call_Delete None; call_Done (Some io_timeout)]
                       sample_state)) = []) by reflexivity.
  split; [exact Hnone |].
  exact (proj2 (calls_commit_at_most_once
                  [call_Delete None; call_Done (Some io_timeout)]
                  sample_state) Hnone).
Defined.

(** X6. After Done. Once [tx] is nil, no call of any method reaches the
    driver, with a statement or with a commit, and none changes the job
    or the tables. *)
Theorem nothing_after_Done (cs : list call) (s : State) :
  locked (job s) ->
  let s1 := final (Done None s) in
  tx (job s1) = None
  /\ final (do_calls cs s1) = s1
  /\ List.filter is_driver_call (events (do_calls cs s1)) = [].
Proof.
  intros Hl s1. subst s1.
  assert (Hnil : tx (job (final (Done None s))) = None).
  { pose proof (Done_run s None Hl) as E. cbv zeta in E. by rewrite E. }
  split; [exact Hnil |]. by apply calls_after_Done.
Qed.

Lemma nothing_after_Done_witness :
  locked (job sample_state)
  /\ List.filter is_driver_call
       (events (do_calls [call_Done None; call_Tx; call_Delete None;
                          call_Finished (1300 * second) None]
                  (final (Done None sample_state)))) = [].
Proof.
  assert (Hl : locked (job sample_state)) by (split; reflexivity).
  split; [exact Hl |].
  exact (proj2 (proj2 (nothing_after_Done
    [call_Done None; call_Tx; call_Delete None;
     call_Finished (1300 * second) None] sample_state Hl))).
Defined.

(** ** Calls that belong together *)

Lemma bind_run {A B} (m : M A) (k : A -> M B) (s : State) :
  (m ≫= k) s
  = match m s with
    | (Return a, s1, l1) =>
        (result (k a s1), final (k a s1), l1 ++ events (k a s1))
    | (Panic v, s1, l1) => (Panic v, s1, l1)
    end.
Proof.
  unfold mbind, M_bind, result, final, events.
  destruct (m s) as [[[a|w] s1] l1]; [| reflexivity].
  by destruct (k a s1) as [[o s2] l2].
Qed.

(** X7. Delete, then Done. On a locked job not marked deleted, [Delete]
    followed by [Done] with a commit that goes through returns nil with
    one successful commit, and the committed [gue_jobs] is the
    transaction's view without the job's row when the driver ran the
    DELETE, and the transaction's view as it was when it did not. The
    handles are nil afterwards. *)
Theorem Delete_then_Done (s : State) (exec : option error) :
  locked (job s) ->
  deleted (job s) = false ->
  let r := (Delete exec;; Done None) s in
  result r = Return None
  /\ List.filter committed (events r) = [EvCommit None]
  /\ gue_jobs (store (final r))
       = (if exec is None then delete (ID (job s)) (gue_jobs (view s))
          else gue_jobs (view s))
  /\ gue_jobs_finished (store (final r)) = gue_jobs_finished (view s)
  /\ deleted (job (final r)) = (if exec is None then true else false)
  /\ tx (job (final r)) = None /\ pool (job (final r)) = None.
Proof.
  intros Hl Hd r. subst r. pose proof Hl as [Ht Hp].
  rewrite bind_run.
  pose proof (Delete_run s exec Hd Ht) as E. cbv zeta in E. rewrite E. clear E.
  match goal with
  | |- context [Done None ?s1] =>
      assert (Hl1 : locked (job s1)) by (by destruct exec);
      pose proof (Done_run s1 None Hl1) as E; cbv zeta in E; rewrite E
  end.
  unfold result, final, events. cbn. destruct exec; cbn; by rewrite ?Hd.
Qed.

Lemma Delete_then_Done_witness :
  locked (job sample_state)
  /\ deleted (job sample_state) = false
  /\ gue_jobs (store (final ((Delete None;; Done None) sample_state))) !! 7
       = None
  /\ gue_jobs (store (final ((Delete None;; Done None) sample_state))) !! 8
       = Some other_row.
Proof.
  assert (Hl : locked (job sample_state)) by (split; reflexivity).
  assert (Hd : deleted (job sample_state) = false) by reflexivity.
  destruct (Delete_then_Done sample_state None Hl Hd)
    as (_ & _ & Hrows & _).
  split; [exact Hl |]. split; [exact Hd |].
  cbv zeta in Hrows. rewrite Hrows. split; reflexivity.
Defined.

(** X8. Finished, Migrate, then Done. The job is locked and not marked
    finished, it stands for its row, its [UpdatedAt] is valid and the
    archive has no row with its id. When the driver runs both statements
    and the commit, the three calls return nil and leave, committed, the
    same row in both tables: the job's row with finished_at the clock
    reading of [Finished]. *)
Theorem Finished_Migrate_Done (s : State) (clock : time_Time) :
  locked (job s) ->
  finished (job s) = false ->
  Valid (UpdatedAt (job s)) = true ->
  gue_jobs (view s) !! ID (job s) = Some (job_columns (job s)) ->
  gue_jobs_finished (view s) !! ID (job s) = None ->
  let r := (Finished clock None;; Migrate None;; Done None) s in
  let row := set_finished_at clock (job_columns (job s)) in
  result r = Return None
  /\ gue_jobs (store (final r)) !! ID (job s) = Some row
  /\ gue_jobs_finished (store (final r)) !! ID (job s) = Some row
  /\ List.filter committed (events r) = [EvCommit None].
Proof.
  intros Hl Hf Hu Hrow Hfree r row. subst r row.
  destruct s as [j v st]; cbn [job view store] in *. destruct Hl as [Ht Hp].
  run. repeat (cbn; rewrite ?Hf, ?Ht, ?Hp, ?Hfree).
  unfold result, final, events. cbn.
  rewrite lookup_alter_eq, Hrow, lookup_insert_eq.
  repeat split. cbn. f_equal.
  unfold migrated_row, set_finished_at, job_columns, NullTime_Value, Time_UTC.
  by rewrite Hu.
Qed.

Lemma Finished_Migrate_Done_witness :
  locked (job sample_state)
  /\ finished (job sample_state) = false
  /\ Valid (UpdatedAt (job sample_state)) = true
  /\ gue_jobs (view sample_state) !! ID (job sample_state)
       = Some (job_columns (job sample_state))
  /\ gue_jobs_finished (view sample_state) !! ID (job sample_state) = None
  /\ gue_jobs_finished
       (store (final ((Finished (1200 * second) None;; Migrate None;;
                       Done None) sample_state))) !! 7
     = Some (job_columns finished_job).
Proof.
  assert (Hl : locked (job sample_state)) by (split; reflexivity).
  assert (Hf : finished (job sample_state) = false) by reflexivity.
  assert (Hu : Valid (UpdatedAt (job sample_state)) = true) by reflexivity.
  assert (Hrow : gue_jobs (view sample_state) !! ID (job sample_state)
                 = Some (job_columns (job sample_state))) by reflexivity.
  assert (Hfree : gue_jobs_finished (view sample_state)
                    !! ID (job sample_state) = None) by reflexivity.
  destruct (Finished_Migrate_Done sample_state (1200 * second)
              Hl Hf Hu Hrow Hfree) as (_ & _ & Harchive & _).
  split; [exact Hl |]. split; [exact Hf |]. split; [exact Hu |].
  split; [exact Hrow |]. split; [exact Hfree |].
  exact (eq_trans Harchive eq_refl).
Defined.

(** X9. Migrate twice. [Migrate] keeps no flag of its own. On a locked job
    marked finished, once a [Migrate] has inserted the job's row, a second
    [Migrate] executes the INSERT again: it does not return nil, whatever
    the driver answers, and the tables are as the first one left them. *)
Theorem Migrate_twice (s : State) (exec' : option error) :
  locked (job s) ->
  finished (job s) = true ->
  gue_jobs_finished (view s) !! ID (job s) = None ->
  let s1 := final (Migrate None s) in
  let r := Migrate exec' s1 in
  result (Migrate None s) = Return None
  /\ List.filter is_exec (events r) <> []
  /\ result r
       = Return (Some (if exec' is Some e then e else unique_violation))
  /\ view (final r) = view s1
  /\ job (final r) = job s.
Proof.
  intros [Ht Hp] Hf Hfree s1 r. subst s1 r.
  destruct s as [j v st]; cbn [job view store] in *.
  run. repeat (cbn; rewrite ?Hf, ?Ht, ?Hp, ?Hfree).
  destruct exec'; cbn; rewrite ?lookup_insert_eq; by repeat split.
Qed.

Lemma Migrate_twice_witness :
  locked (job (state_of finished_job))
  /\ finished (job (state_of finished_job)) = true
  /\ gue_jobs_finished (view (state_of finished_job))
       !! ID (job (state_of finished_job)) = None
  /\ result (Migrate None (final (Migrate None (state_of finished_job))))
     = Return (Some unique_violation).
Proof.
  assert (Hl : locked (job (state_of finished_job))) by (split; reflexivity).
  assert (Hf : finished (job (state_of finished_job)) = true) by reflexivity.
  assert (Hfree : gue_jobs_finished (view (state_of finished_job))
                    !! ID (job (state_of finished_job)) = None)
    by reflexivity.
  destruct (Migrate_twice (state_of finished_job) None Hl Hf Hfree)
    as (_ & _ & Hres & _).
  split; [exact Hl |]. split; [exact Hf |]. split; [exact Hfree |].
  exact Hres.
Defined.

(** X10. Error again. [Error] counts from the [ErrorCount] read at lock
    time. When the commit of a first [Error] fails and [Error] is called
    again, the second UPDATE carries the same error count as the first,
    with the second message and clock reading; after its commit the row
    has that count: the two failures count as one. *)
Theorem Error_again_same_count (s : State) (clock1 clock2 : time_Time)
    (msg1 msg2 : string) (doneErr : error) (row : Row) :
  locked (job s) ->
  gue_jobs (view s) !! ID (job s) = Some row ->
  let j := job s in
  let n := int32_add (ErrorCount j) 1 in
  let r1 := Error clock1 msg1 None (Some doneErr) s in
  let r2 := Error clock2 msg2 None None (final r1) in
  List.filter is_exec (events r1)
    = [EvExec (sql_error n (clock1 + backoff j n) msg1 clock1 (ID j)) None]
  /\ List.filter is_exec (events r2)
       = [EvExec (sql_error n (clock2 + backoff j n) msg2 clock2 (ID j)) None]
  /\ gue_jobs (store (final r2)) !! ID j
       = Some (set_errored n (clock2 + backoff j n) msg2 clock2 row)
  /\ error_count (set_errored n (clock2 + backoff j n) msg2 clock2 row) = n.
Proof.
  intros Hl Hrow j n r1 r2. subst j n r1 r2.
  pose proof (Error_run s clock1 msg1 None (Some doneErr) Hl) as E1.
  cbv zeta in E1. rewrite E1. clear E1.
  change (final (?o, ?s1, ?l)) with s1.
  match goal with
  | |- context [Error clock2 msg2 None None ?s1] =>
      pose proof (Error_run s1 clock2 msg2 None None Hl) as E2;
      cbv zeta in E2; rewrite E2; clear E2
  end.
  unfold final, events. cbn.
  rewrite !lookup_alter_eq, Hrow. by repeat split.
Qed.

Lemma Error_again_same_count_witness :
  locked (job sample_state)
  /\ gue_jobs (view sample_state) !! ID (job sample_state)
       = Some (job_columns sample_job)
  /\ (error_count <$>
        gue_jobs
          (store (final (Error (1300 * second) "boom3" None None
                           (final (Error (1200 * second) "boom2" None
                                     (Some conn_closed) sample_state)))))
          !! 7)
     = Some 3.
Proof.
  assert (Hl : locked (job sample_state)) by (split; reflexivity).
  assert (Hrow : gue_jobs (view sample_state) !! ID (job sample_state)
                 = Some (job_columns sample_job)) by reflexivity.
  destruct (Error_again_same_count sample_state (1200 * second)
              (1300 * second) "boom2" "boom3" conn_closed
              (job_columns sample_job) Hl Hrow) as (_ & _ & Hstore & _).
  split; [exact Hl |]. split; [exact Hrow |].
  cbv zeta in Hstore.
  exact (eq_trans (f_equal (fmap error_count) Hstore) eq_refl).
Defined.

(** X11. A job without a pool. On a job that holds a transaction and no
    pool, [Done] returns nil without a call to the driver and leaves [tx]
    set; [Error] executes its UPDATE and returns what the driver answered,
    and the UPDATE stays uncommitted: no method commits such a job. *)
Theorem Done_without_pool_never_commits (s : State) (clock : time_Time)
    (msg : string) (exec commit : option error) (cs : list call) :
  tx (job s) = Some the_tx ->
  pool (job s) = None ->
  result (Done commit s) = Return None
  /\ final (Done commit s) = s
  /\ List.filter is_driver_call (events (Done commit s)) = []
  /\ result (Error clock msg exec commit s) = Return exec
  /\ List.filter is_exec (events (Error clock msg exec commit s))
       = [EvExec (sql_error (int32_add (ErrorCount (job s)) 1)
                    (clock + backoff (job s) (int32_add (ErrorCount (job s)) 1))
                    msg clock (ID (job s))) exec]
  /\ List.filter ends_tx (events (Error clock msg exec commit s)) = []
  /\ store (final (Error clock msg exec commit s)) = store s
  /\ List.filter committed (events (do_calls cs s)) = [].
Proof.
  intros Ht Hp.
  assert (Hcalls : forall cs s, tx (job s) = Some the_tx -> pool (job s) = None
            -> List.filter committed (events (do_calls cs s)) = []).
  { clear. intros cs. induction cs as [|c cs IH]; intros s Ht Hp; [done |].
    rewrite do_calls_cons.
    destruct (call_commit_cases c s) as [[Hl _] | (_ & [_ Hp'] & _)];
      [| congruence].
    assert (Hh : tx (job (final (do_call c s))) = tx (job s)
                 /\ pool (job (final (do_call c s))) = pool (job s)).
    { revert Ht Hp. clear. call_cases c s; intros; try discriminate;
        by split. }
    destruct Hh as [Ht' Hp'].
    destruct (do_call c s) as [[[[]|w] s1] l1];
      unfold final, events in *; cbn [fst snd] in *; [| done].
    rewrite List.filter_app, Hl. cbn. apply IH; congruence. }
  split; [by rewrite (Done_no_pool s commit Ht Hp) |].
  split; [by rewrite (Done_no_pool s commit Ht Hp) |].
  split; [by rewrite (Done_no_pool s commit Ht Hp) |].
  split; [| split; [| split; [| split; [| by apply Hcalls]]]].
  all: revert Ht Hp; open_state s; intros Ht Hp; run;
    rewrite Ht; cbn; destruct exec; cbn; rewrite Ht; cbn; rewrite Hp;
    reflexivity.
Qed.

Lemma Done_without_pool_never_commits_witness :
  tx (job poolless_state) = Some the_tx
  /\ pool (job poolless_state) = None
  /\ final (Done None poolless_state) = poolless_state
  /\ store (final (Error (1200 * second) "boom2" None None poolless_state))
       = store poolless_state
  /\ List.filter committed
       (events (do_calls [call_Delete None; call_Done None; call_Done None]
                  poolless_state)) = [].
Proof.
  assert (Ht : tx (job poolless_state) = Some the_tx) by reflexivity.
  assert (Hp : pool (job poolless_state) = None) by reflexivity.
  destruct (Done_without_pool_never_commits poolless_state (1200 * second)
              "boom2" None None
              [call_Delete None; call_Done None; call_Done None] Ht Hp)
    as (_ & Hsame & _ & _ & _ & _ & Hstore & Hnone).
  split; [exact Ht |]. split; [exact Hp |]. split; [exact Hsame |].
  split; [exact Hstore | exact Hnone].
Defined.

(** X12. What nil means. On a locked job, when [Error] returns nil the
    driver ran the UPDATE and the commit went through: the transaction's
    view is the committed state, after one commit. (The UPDATE may have
    matched no row.) When [Error] returns an error, either the commit
    went through and the error is the one of the UPDATE, the transaction
    being committed all the same, or the commit failed, the error is the
    one that wraps it, nothing is committed and the job keeps its
    handles. *)
Theorem Error_nil_means_committed (s : State) (clock : time_Time)
    (msg : string) (exec commit : option error) :
  locked (job s) ->
  let r := Error clock msg exec commit s in
  (result r = Return None ->
     exec = None /\ commit = None
     /\ store (final r) = view (final r)
     /\ List.filter committed (events r) = [EvCommit None])
  /\ (forall e, result r = Return (Some e) ->
        (commit = None /\ exec = Some e
         /\ store (final r) = view (final r)
         /\ tx (job (final r)) = None)
        \/ (exists doneErr,
              commit = Some doneErr /\ e = done_error exec doneErr
              /\ store (final r) = store s
              /\ List.filter committed (events r) = []
              /\ locked (job (final r)))).
Proof.
  intros Hl r. subst r.
  by_run (Error_run s clock msg exec commit Hl).
  destruct exec as [x|], commit as [d|]; cbn;
    (split; [intros H | intros e He]); simplify_eq;
    first [ by repeat split
          | left; by repeat split
          | right; eexists; repeat split;
            first [ reflexivity | apply Hl ] ].
Qed.

Lemma Error_nil_means_committed_witness :
  locked (job sample_state)
  /\ result (Error (1200 * second) "boom2" None None sample_state)
       = Return None
  /\ store (final (Error (1200 * second) "boom2" None None sample_state))
       = view (final (Error (1200 * second) "boom2" None None sample_state)).
Proof.
  assert (Hl : locked (job sample_state)) by (split; reflexivity).
  assert (Hnil : result (Error (1200 * second) "boom2" None None sample_state)
                 = Return None) by reflexivity.
  split; [exact Hl |]. split; [exact Hnil |].
  destruct (proj1 (Error_nil_means_committed sample_state (1200 * second)
                     "boom2" None None Hl) Hnil) as (_ & _ & Hstore & _).
  exact Hstore.
Defined.

Lemma call_keeps_finished_time (c : call) (s : State) :
  finished_has_time (job s) -> finished_has_time (job (final (do_call c s))).
Proof.
  unfold finished_has_time. call_cases c s; rewrite ?Hf; done.
Qed.

(** X13. The finished flag and its time. A job whose [finished] flag, if
    set, comes with a valid [FinishedAt] is such a job after any row of
    calls: [Migrate] never archives an invalid finished_at of a job that
    [Finished] marked. *)
Theorem calls_keep_finished_time (cs : list call) (s : State) :
  finished_has_time (job s) ->
  finished_has_time (job (final (do_calls cs s))).
Proof.
  apply (do_calls_keep (fun s s' =>
    finished_has_time (job s) -> finished_has_time (job s'))); auto.
  intros c s0. apply call_keeps_finished_time.
Qed.

Lemma calls_keep_finished_time_witness :
  finished_has_time (job sample_state)
  /\ finished_has_time
       (job (final (do_calls [call_Finished (1200 * second) None;
                              call_Migrate None; call_Done None]
                      sample_state))).
Proof.
  assert (H0 : finished_has_time (job sample_state)) by discriminate.
  split; [exact H0 |].
  exact (calls_keep_finished_time
           [call_Finished (1200 * second) None; call_Migrate None;
            call_Done None] sample_state H0).
Defined.

(** ** The mutex, over calls in a row *)

Lemma guarded_from_app (held : bool) (l1 l2 : list event) :
  guarded_from held l1 = true ->
  guarded_from false l2 = true ->
  guarded_from held (l1 ++ l2) = true.
Proof.
  revert held. induction l1 as [|e l1 IH]; intros held H1 H2.
  - destruct held; [discriminate H1 | exact H2].
  - destruct e, held; cbn in H1 |- *; try discriminate H1; by apply IH.
Qed.

Lemma call_holds_mu (c : call) (s : State) :
  is_Error c = false -> lock_discipline (events (do_call c s)) = true.
Proof.
  unfold lock_discipline. call_cases c s; intros H; try discriminate H; done.
Qed.

(** X14. The mutex over calls in a row. A row of calls of [Tx], [Delete],
    [Finished], [Migrate] and [Done] keeps the mutex discipline from its
    first event to its last, whatever the driver answers and also when a
    call panics: [mu] is free between the calls and at the end. *)
Theorem calls_hold_mu (cs : list call) (s : State) :
  forallb (fun c => negb (is_Error c)) cs = true ->
  lock_discipline (events (do_calls cs s)) = true.
Proof.
  revert s. induction cs as [|c cs IH]; intros s Hcs; [done |].
  cbn in Hcs. apply andb_true_iff in Hcs as [Hc Hcs].
  apply negb_true_iff in Hc.
  rewrite do_calls_cons. pose proof (call_holds_mu c s Hc) as H1.
  destruct (do_call c s) as [[[[]|w] s1] l1];
    unfold events in *; cbn [fst snd] in *; [| exact H1].
  apply guarded_from_app; [exact H1 |]. by apply IH.
Qed.

Lemma calls_hold_mu_witness :
  forallb (fun c => negb (is_Error c))
    [call_Tx; call_Finished (1200 * second) None; call_Migrate None;
     call_Done None; call_Delete None] = true
  /\ lock_discipline
       (events (do_calls
          [call_Tx; call_Finished (1200 * second) None; call_Migrate None;
           call_Done None; call_Delete None] sample_state)) = true.
Proof.
  assert (H0 : forallb (fun c => negb (is_Error c))
            [call_Tx; call_Finished (1200 * second) None; call_Migrate None;
             call_Done None; call_Delete None] = true) by reflexivity.
  split; [exact H0 |].
  exact (calls_hold_mu _ sample_state H0).
Defined.

(** * worker_option.go *)

Module opt_facts.
Import opt.
Section Options.
Context {Logger HookFunc PollStrategy WorkerRest PoolRest : Type}.

#[local] Abbreviation Worker :=
  (@Worker Logger HookFunc PollStrategy WorkerRest).
#[local] Abbreviation WorkerPool :=
  (@WorkerPool Logger HookFunc PollStrategy PoolRest).
#[local] Abbreviation setting := (@setting Logger HookFunc PollStrategy).

Ltac two_settings a b :=
  destruct a, b; cbn in *; try congruence; reflexivity.

Lemma worker_options_commute (a b : setting) (w : Worker) :
  written a <> written b ->
  worker_option a (worker_option b w) = worker_option b (worker_option a w).
Proof. intros H. two_settings a b. Qed.

Lemma pool_options_commute (a b : setting) (w : WorkerPool) :
  written a <> written b ->
  pool_option a (pool_option b w) = pool_option b (pool_option a w).
Proof. intros H. two_settings a b. Qed.

Lemma worker_option_overrides (a b : setting) (w : Worker) :
  written a = written b ->
  worker_option a (worker_option b w) = worker_option a w.
Proof. intros H. two_settings a b. Qed.

Lemma pool_option_overrides (a b : setting) (w : WorkerPool) :
  written a = written b ->
  pool_option a (pool_option b w) = pool_option a w.
Proof. intros H. two_settings a b. Qed.

Lemma apply_all_cons {T} (o : T -> T) (os : list (T -> T)) (w : T) :
  apply_all (o :: os) w = apply_all os (o w).
Proof. reflexivity. Qed.

Lemma apply_all_snoc {T} (o : T -> T) (os : list (T -> T)) (w : T) :
  apply_all (os ++ [o]) w = o (apply_all os w).
Proof. unfold apply_all. by rewrite fold_left_app. Qed.

(** The order of options that write different fields does not matter,
    for any struct and options that commute on it. *)
Lemma in_any_order {T} (option_of : setting -> T -> T) :
  (forall a b w, written a <> written b ->
     option_of a (option_of b w) = option_of b (option_of a w)) ->
  forall os os' : list setting,
    os ≡ₚ os' -> NoDup (written <$> os) ->
    forall w, apply_all (option_of <$> os) w
              = apply_all (option_of <$> os') w.
Proof.
  intros Hcomm os os' Hperm.
  induction Hperm as [| x l l' _ IH | x y l | l l' l'' H1 IH1 H2 IH2];
    intros Hnd w.
  - reflexivity.
  - rewrite !fmap_cons, !apply_all_cons. apply IH.
    rewrite fmap_cons in Hnd. by apply NoDup_cons in Hnd as [_ ?].
  - rewrite !fmap_cons, !apply_all_cons. f_equal. apply Hcomm.
    rewrite !fmap_cons in Hnd. apply NoDup_cons in Hnd as [Hin _].
    intros Heq. apply Hin. rewrite Heq. by left.
  - rewrite IH1 by done. apply IH2.
    by rewrite <- H1.
Qed.

(** X15. Options in any order. When no two options of a list write the
    same field, a worker, and a pool, configured with the list is the
    same whatever the order the options are applied in. *)
Theorem options_in_any_order (os os' : list setting) (w : Worker)
    (p : WorkerPool) :
  os ≡ₚ os' ->
  NoDup (written <$> os) ->
  apply_all (worker_option <$> os) w = apply_all (worker_option <$> os') w
  /\ apply_all (pool_option <$> os) p = apply_all (pool_option <$> os') p.
Proof.
  intros Hperm Hnd. split.
  - by apply (in_any_order worker_option worker_options_commute).
  - by apply (in_any_order pool_option pool_options_commute).
Qed.

(** An option applied last makes the earlier options on its field
    irrelevant. *)
Lemma last_wins {T} (option_of : setting -> T -> T) :
  (forall a b w, written a <> written b ->
     option_of a (option_of b w) = option_of b (option_of a w)) ->
  (forall a b w, written a = written b ->
     option_of a (option_of b w) = option_of a w) ->
  forall (o : setting) (os : list setting) (w : T),
    apply_all (option_of <$> (os ++ [o])) w
    = option_of o
        (apply_all
           (option_of <$> filter (fun o' => written o' <> written o) os) w).
Proof.
  intros Hcomm Hover o os.
  assert (Hdrop : forall (l : list setting) (o' : setting) (w : T),
            written o' = written o ->
            Forall (fun x => written x <> written o) l ->
            option_of o (apply_all (option_of <$> l) (option_of o' w))
            = option_of o (apply_all (option_of <$> l) w)).
  { intros l. induction l as [|x l IH] using rev_ind; intros o' w Ho' Hl.
    - cbn. by apply Hover.
    - apply Forall_app in Hl as [Hl Hx]. apply Forall_inv in Hx.
      rewrite !fmap_app, !fmap_cons, !fmap_nil, !apply_all_snoc.
      assert (Hox : written o <> written x) by congruence.
      rewrite !(Hcomm o x) by done. f_equal. by apply IH. }
  induction os as [|x os IH]; intros w.
  - reflexivity.
  - rewrite <- app_comm_cons, fmap_cons, apply_all_cons, IH.
    rewrite filter_cons. case_decide as Hx.
    + by rewrite fmap_cons, apply_all_cons.
    + apply Hdrop; [by destruct (decide (written x = written o)) |].
      apply Forall_forall. intros y Hy.
      by apply list_elem_of_filter in Hy as [? _].
Qed.

Lemma apply_all_keeps {T A} (f : T -> A) (option_of : setting -> T -> T) :
  (forall o w, f (option_of o w) = f w) ->
  forall os w, f (apply_all (option_of <$> os) w) = f w.
Proof.
  intros Hf os. induction os as [|x os IH]; intros w; [done |].
  by rewrite fmap_cons, apply_all_cons, IH.
Qed.

(** X16. The last option wins. An option applied after others gives the
    worker, and the pool, that the option gives when the earlier options
    on the same field are left out: a second [WithWorkerQueue] replaces
    the queue, and a second [WithWorkerHooksJobLocked] replaces the hooks
    of the first, it does not add to them. What the struct holds besides
    the ten fields is never touched. *)
Theorem last_option_wins (o : setting) (os : list setting) (w : Worker)
    (p : WorkerPool) :
  apply_all (worker_option <$> (os ++ [o])) w
    = worker_option o
        (apply_all
           (worker_option <$> filter (fun o' => written o' <> written o) os)
           w)
  /\ apply_all (pool_option <$> (os ++ [o])) p
     = pool_option o
         (apply_all
            (pool_option <$> filter (fun o' => written o' <> written o) os)
            p)
  /\ rest (apply_all (worker_option <$> os) w) = rest w
  /\ rest (apply_all (pool_option <$> os) p) = rest p.
Proof.
  split; [| split; [| split]].
  - apply (last_wins worker_option worker_options_commute
             worker_option_overrides).
  - apply (last_wins pool_option pool_options_commute
             pool_option_overrides).
  - apply (apply_all_keeps rest worker_option). by intros [].
  - apply (apply_all_keeps rest pool_option). by intros [].
Qed.
End Options.

Lemma options_in_any_order_witness :
  sample_options ≡ₚ sample_options_swapped
  /\ NoDup (written <$> sample_options)
  /\ apply_all (worker_option <$> sample_options) sample_worker
     = apply_all (worker_option <$> sample_options_swapped) sample_worker.
Proof.
  assert (Hp : sample_options ≡ₚ sample_options_swapped) by apply perm_swap.
  assert (Hn : NoDup (written <$> sample_options))
    by (apply (bool_decide_unpack (NoDup (written <$> sample_options)));
        vm_compute; exact I).
  split; [exact Hp |]. split; [exact Hn |].
  exact (proj1 (options_in_any_order _ _ sample_worker sample_worker Hp Hn)).
Defined.
End opt_facts.
